(** * prolog: a replicated commit log, verified against its Go sources

    A shallow embedding of the Go packages [server] (in-memory log and the
    gRPC handlers) and [log] (store, index, distributed log, replicator).
    Go integers are [Z] with the wrap-around of their width written out,
    byte slices are lists of 8-bit [Z], Go's [(value, error)] results are
    pairs whose error component is an [option], and a run-time panic (slice
    bounds, failed type assertion, closing a closed channel) is [None]. *)

From Stdlib Require Import ZArith Lia List Bool String.
From stdpp Require Import base option list gmap strings.

Local Open Scope Z_scope.

(** ** Go machine arithmetic, errors and slices *)

Module Go.

Definition byte := Z.

Definition uint8 (x : Z) : Z := x mod 2 ^ 8.
Definition uint32 (x : Z) : Z := x mod 2 ^ 32.
Definition uint64 (x : Z) : Z := x mod 2 ^ 64.
Definition int32 (x : Z) : Z := (x + 2 ^ 31) mod 2 ^ 32 - 2 ^ 31.
Definition int64 (x : Z) : Z := (x + 2 ^ 63) mod 2 ^ 64 - 2 ^ 63.

(** [int] is 64 bits wide on the platforms the repository targets. *)
Definition int (x : Z) : Z := int64 x.
Definition max_int : Z := 2 ^ 63 - 1.

(** [make] panics on a length above the runtime's [maxAlloc], which is
    2^48 bytes on the 64-bit platforms; a length within it is taken to be
    granted (the machine has the memory). *)
Definition maxAlloc : Z := 2 ^ 48.

Definition len {A} (l : list A) : Z := Z.of_nat (length l).

(** Go's [error] values that occur in the sources: [errors.New] strings
    (which include [io.EOF]) and the api package's offset error. Both are
    pointers: [errors.New] returns a pointer to an [errorString], and of
    the api package's [ErrorOffsetOutOfRange] only the pointer type has
    the method [Error], so only a pointer to the struct is an [error]. *)
Inductive error :=
| errorString (msg : string)
| ErrorOffsetOutOfRange (Offset : Z).

(** The types a type switch on an [error] tells apart: the two struct
    types and the pointers to them. *)
Inductive GoType :=
| T_errorString
| T_ErrorOffsetOutOfRange
| T_Pointer (elem : GoType).

#[export] Instance GoType_eq_dec : EqDecision GoType.
Proof. solve_decision. Defined.

Definition dynamicType (e : error) : GoType :=
  match e with
  | errorString _ => T_Pointer T_errorString
  | ErrorOffsetOutOfRange _ => T_Pointer T_ErrorOffsetOutOfRange
  end.

Definition EOF : error := errorString "EOF".
Definition ErrShortWrite : error := errorString "short write".

(** [s[lo:hi]] with the run-time bounds check of a slice expression. *)
Definition slice {A} (s : list A) (lo hi : Z) : option (list A) :=
  if (0 <=? lo) && (lo <=? hi) && (hi <=? len s)
  then Some (take (Z.to_nat (hi - lo)) (drop (Z.to_nat lo) s))
  else None.

(** Storing [bs] through the sub-slice [s[lo:hi]], which aliases [s]. *)
Definition slice_put {A} (s : list A) (lo hi : Z) (bs : list A) : option (list A) :=
  if (0 <=? lo) && (lo <=? hi) && (hi <=? len s) && (len bs =? hi - lo)
  then Some (take (Z.to_nat lo) s ++ bs ++ drop (Z.to_nat hi) s)
  else None.

(** [s[i]] with its bounds check. *)
Definition index_at {A} (s : list A) (i : Z) : option A :=
  if (0 <=? i) && (i <? len s) then s !! Z.to_nat i else None.

(** [encoding/binary.BigEndian]: most significant byte first. *)
Fixpoint be_encode (n : nat) (v : Z) : list byte :=
  match n with
  | O => []
  | S n' => uint8 (v / 2 ^ (8 * Z.of_nat n')) :: be_encode n' v
  end.

Definition be_decode (bs : list byte) : Z :=
  fold_left (fun acc b => acc * 256 + b) bs 0.

Definition PutUint32 (v : Z) : list byte := be_encode 4 v.
Definition PutUint64 (v : Z) : list byte := be_encode 8 v.
Definition Uint32 (b : list byte) : Z := be_decode b.
Definition Uint64 (b : list byte) : Z := be_decode b.

(** [io.Writer]: [write w p] returns the writer after the call, the count
    of bytes it took and the error; the interface's contract is that a
    short count comes with a non-nil error. *)
Class Writer (W : Type) := {
  write : W -> list byte -> W * (Z * option error);
  write_full : forall w p w' n, write w p = (w', (n, None)) -> n = len p
}.

(** [binary.Write(w, order, uint64)]: encode, hand to the writer, keep
    only the error. *)
Definition binary_Write `{Writer W} (w : W) (v : Z) : W * option error :=
  let '(w', (_, err)) := write w (PutUint64 v) in (w', err).

End Go.

Import Go.

(** ** package server: the in-memory log (internal/server/log.go) *)

Module ServerLog.

Definition ErrOffsetNotFound : error := errorString "offset not found".

Record Record_ := mkRecord { Value : list byte; Offset : Z }.

Record Log := mkLog { records : list Record_ }.

Definition NewLog : Log := mkLog [].

Definition Append (l : Log) (record : Record_) : Log * (Z * option error) :=
  let record := mkRecord (Value record) (uint64 (len (records l))) in
  (mkLog (records l ++ [record]), (Offset record, None)).

Definition Read (l : Log) (offset : Z) : option (Record_ * option error) :=
  if uint64 (len (records l)) <=? offset
  then Some (mkRecord [] 0, Some ErrOffsetNotFound)
  else r ← index_at (records l) offset; Some (r, None).

(** A client that appends the records of [rs] one after the other and
    collects what each call returned. *)
Fixpoint AppendAll (l : Log) (rs : list Record_) : Log * list (Z * option error) :=
  match rs with
  | [] => (l, [])
  | r :: rs' =>
      let '(l1, res) := Append l r in
      let '(l2, out) := AppendAll l1 rs' in
      (l2, res :: out)
  end.

End ServerLog.

(** ** package log: the store (length-prefixed frames behind a buffered writer) *)

Module Store.

Definition lenWidth : Z := 8.

(** The [file] field is reached only through [buf] by [Append]; the
    writer [W] stands for the [bufio.Writer] wrapped around it. *)
Record store (W : Type) := mkStore { buf : W; size : Z }.
Arguments mkStore {W} _ _.
Arguments buf {W} _.
Arguments size {W} _.


Definition Append `{Writer W} (s : store W) (p : list byte)
  : store W * (Z * Z * option error) :=
  let pos := size s in
  match binary_Write (buf s) (uint64 (len p)) with
  | (b1, Some err) => (mkStore b1 (size s), (0, 0, Some err))
  | (b1, None) =>
      match write b1 p with
      | (b2, (_, Some err)) => (mkStore b2 (size s), (0, 0, Some err))
      | (b2, (w, None)) =>
          let w := int (w + lenWidth) in
          (mkStore b2 (uint64 (size s + uint64 w)), (uint64 w, pos, None))
      end
  end.

(** A caller issuing [Append] for each payload in turn, whatever each
    call returns. *)
Fixpoint AppendAll `{Writer W} (s : store W) (ps : list (list byte))
  : store W * list (Z * Z * option error) :=
  match ps with
  | [] => (s, [])
  | p :: ps' =>
      let '(s1, res) := Append s p in
      let '(s2, out) := AppendAll s1 ps' in
      (s2, res :: out)
  end.

(** The bytes a call reported as written. *)
Definition written (res : Z * Z * option error) : Z := res.1.1.

(** The framed length of one payload, of all the payloads of a run, and of
    those whose [Append] returned no error. *)
Definition framed (p : list byte) : Z := lenWidth + len p.

Definition frames_total (ps : list (list byte)) : Z :=
  foldr (fun p acc => framed p + acc) 0 ps.

Fixpoint frames_appended (ps : list (list byte)) (out : list (Z * Z * option error)) : Z :=
  match ps, out with
  | p :: ps', (_, _, None) :: out' => framed p + frames_appended ps' out'
  | _ :: ps', _ :: out' => frames_appended ps' out'
  | _, _ => 0
  end.

(** A writer over a device with [room] bytes left: it takes what fits and
    then fails, and like [bufio.Writer] it keeps failing afterwards. *)
Record quotaWriter := mkQuota {
  taken : list byte;
  room : Z;
  werr : option error
}.

Definition quota_write (w : quotaWriter) (p : list byte)
  : quotaWriter * (Z * option error) :=
  match werr w with
  | Some err => (w, (0, Some err))
  | None =>
      if len p <=? room w
      then (mkQuota (taken w ++ p) (room w - len p) None, (len p, None))
      else (mkQuota (taken w ++ take (Z.to_nat (room w)) p) 0 (Some ErrShortWrite),
            (Z.max 0 (room w), Some ErrShortWrite))
  end.

Lemma quota_write_full (w : quotaWriter) (p : list byte) (w' : quotaWriter) (n : Z) :
  quota_write w p = (w', (n, None)) -> n = len p.
Proof.
  unfold quota_write.
  destruct (werr w); [congruence|].
  destruct (len p <=? room w); congruence.
Qed.

#[export] Instance quotaWriter_Writer : Writer quotaWriter :=
  {| write := quota_write; write_full := quota_write_full |}.

(** A [bufio.Writer] of the default size around an [os.File] opened for
    appending, on a device that takes every write: [bf_file] is what the
    file holds, [bf_pending] what the writer still buffers. *)
Definition bufSize : Z := 4096.

Record bufFile := mkBufFile { bf_file : list byte; bf_pending : list byte }.

(** Everything written so far, flushed or not. *)
Definition contents (b : bufFile) : list byte := bf_file b ++ bf_pending b.

Definition Flush (b : bufFile) : bufFile * option error :=
  (mkBufFile (bf_file b ++ bf_pending b) [], None).

(** [bufio.Writer.Write]: what fits is buffered; what does not fit goes
    to the file directly when the buffer is empty, and otherwise fills the
    buffer, which is flushed, before the rest is buffered or written. *)
Definition buf_write (b : bufFile) (p : list byte) : bufFile * (Z * option error) :=
  let avail := bufSize - len (bf_pending b) in
  if len p <=? avail then (mkBufFile (bf_file b) (bf_pending b ++ p), (len p, None))
  else if len (bf_pending b) =? 0 then (mkBufFile (bf_file b ++ p) [], (len p, None))
  else
    let head := take (Z.to_nat avail) p in
    let rest := drop (Z.to_nat avail) p in
    let flushed := bf_file b ++ bf_pending b ++ head in
    if len rest <=? bufSize then (mkBufFile flushed rest, (len p, None))
    else (mkBufFile (flushed ++ rest) [], (len p, None)).

Lemma buf_write_full (w : bufFile) (p : list byte) (w' : bufFile) (n : Z) :
  buf_write w p = (w', (n, None)) -> n = len p.
Proof.
  unfold buf_write.
  destruct (len p <=? bufSize - len (bf_pending w)); [congruence|].
  destruct (len (bf_pending w) =? 0); [congruence|].
  destruct (len (drop _ p) <=? bufSize); congruence.
Qed.

#[export] Instance bufFile_Writer : Writer bufFile :=
  {| write := buf_write; write_full := buf_write_full |}.

(** [os.File.ReadAt] with a buffer of [n] bytes at offset [off]: the
    bytes read, and [io.EOF] when the file ends before the buffer is
    full. *)
Definition file_ReadAt (f : list byte) (n off : Z) : list byte * option error :=
  if off <? 0 then ([], Some (errorString "negative offset"))
  else
    let got := take (Z.to_nat n) (drop (Z.to_nat off) f) in
    if len got <? n then (got, Some EOF) else (got, None).

(** [Read]: [None] is the panic of [make] on a length above [maxAlloc]. *)
Definition Read (s : store bufFile) (pos : Z)
  : option (store bufFile * (list byte * option error)) :=
  match Flush (buf s) with
  | (b, Some err) => Some (mkStore b (size s), ([], Some err))
  | (b, None) =>
      let s' := mkStore b (size s) in
      match file_ReadAt (bf_file b) lenWidth (int64 pos) with
      | (_, Some err) => Some (s', ([], Some err))
      | (hdr, None) =>
          if maxAlloc <? Uint64 hdr then None
          else
            match file_ReadAt (bf_file b) (Uint64 hdr) (int64 (uint64 (pos + lenWidth))) with
            | (_, Some err) => Some (s', ([], Some err))
            | (b', None) => Some (s', (b', None))
            end
      end
  end.


Definition Close (s : store bufFile) : store bufFile * option error :=
  match Flush (buf s) with
  | (b, Some err) => (mkStore b (size s), Some err)
  | (b, None) => (mkStore b (size s), None)
  end.

(** The store [newStore] returns for a file holding [f]. *)
Definition openStore (f : list byte) : store bufFile :=
  mkStore (mkBufFile f []) (uint64 (len f)).

(** The size field counts the bytes written, and the file is one a Go
    slice can index. *)
Definition consistent (s : store bufFile) : Prop :=
  size s = len (contents (buf s)) /\ len (contents (buf s)) <= max_int.

(** The frame of a payload as [Append] writes it, and the frames of a
    run of payloads. *)
Definition frame (p : list byte) : list byte := PutUint64 (len p) ++ p.

Definition frames (ps : list (list byte)) : list byte := concat (frame <$> ps).

End Store.

(** ** package log: the index (a memory-mapped table of 12-byte entries) *)

Module Index.

Definition offWidth : Z := 4.
Definition posWidth : Z := 8.
Definition entWidth : Z := uint64 (offWidth + posWidth).

(** [mmap] is the mapping of the whole file, [size] the bytes in use. *)
Record index := mkIndex { mmap : list byte; size : Z }.

(** [newIndex] on a file holding [file] with [Config.Segment.MaxIndexBytes]
    = [max]: [size] is the file's size before [os.Truncate] cuts or
    zero-extends the file to [max] bytes, and the mapping covers the
    truncated file. *)
Definition newIndex (file : list byte) (max : Z) : index :=
  mkIndex (take (Z.to_nat max) file ++ replicate (Z.to_nat max - length file) 0)
          (uint64 (len file)).

(** [Read]: [None] is the panic of a slice expression out of range. The
    decoded offset comes back in the declared result type [int32]. *)
Definition Read (i : index) (in_ : Z) : option (Z * Z * option error) :=
  if size i =? 0 then Some (0, 0, None)
  else
    let out :=
      if in_ =? -1 then int32 (uint64 (size i / entWidth - 1)) else int32 in_ in
    let pos := uint64 (uint64 out * entWidth) in
    if size i <? uint64 (pos + entWidth) then Some (0, 0, Some EOF)
    else
      b1 ← slice (mmap i) pos (uint64 (pos + offWidth));
      b2 ← slice (mmap i) (uint64 (pos + offWidth)) (uint64 (pos + entWidth));
      Some (int32 (Uint32 b1), Uint64 b2, None).

Definition Write (i : index) (off pos : Z) : option (index * option error) :=
  if uint64 (len (mmap i)) <? uint64 (size i + entWidth) then Some (i, Some EOF)
  else
    m1 ← slice_put (mmap i) (size i) (uint64 (size i + offWidth))
                   (PutUint32 (uint32 off));
    m2 ← slice_put m1 (uint64 (size i + offWidth)) (uint64 (size i + entWidth))
                   (PutUint64 pos);
    Some (mkIndex m2 (uint64 (size i + entWidth)), None).

(** The specification's reading of [Read], in unbounded arithmetic: the
    relative offset is [in] itself unless [in] is [-1]. *)
Definition Read_spec (i : index) (in_ : Z) : option (Z * Z * option error) :=
  if size i =? 0 then Some (0, 0, None)
  else
    let relOffset := if in_ =? -1 then size i / entWidth - 1 else in_ in
    let pos := relOffset * entWidth in
    if size i <? pos + entWidth then Some (0, 0, Some EOF)
    else
      b1 ← slice (mmap i) pos (pos + offWidth);
      b2 ← slice (mmap i) (pos + offWidth) (pos + entWidth);
      Some (int32 (Uint32 b1), Uint64 b2, None).

(** An index in order: [size] is a uint64 value counting whole entries,
    no more of them than a 32-bit relative offset can number. *)
Definition whole (i : index) : Prop :=
  0 <= size i /\ size i mod entWidth = 0 /\ size i / entWidth <= 2 ^ 31.

(** An index of capacity 24 holding the single entry (7, 300). *)
Definition one_entry : index :=
  mkIndex (PutUint32 7 ++ PutUint64 300 ++ replicate 12 0) 12.

(** [Close] on a device that does not fail: the mapping is synced to the
    file, which is cut (or zero-extended) to [size] bytes and closed; the
    result is what the file holds then. A size beyond [int64] makes
    [Truncate] fail. *)
Definition Close (i : index) : list byte * option error :=
  if int64 (size i) <? 0 then (mmap i, Some (errorString "invalid argument"))
  else (take (Z.to_nat (size i)) (mmap i)
        ++ replicate (Z.to_nat (size i) - length (mmap i)) 0, None).

(** A segment writing the entries [es] in turn, up to the first error. *)
Fixpoint WriteAll (i : index) (es : list (Z * Z)) : option (index * option error) :=
  match es with
  | [] => Some (i, None)
  | (off, pos) :: es' =>
      match Write i off pos with
      | Some (i', None) => WriteAll i' es'
      | other => other
      end
  end.

End Index.

(** ** The consensus library, as far as the distributed log drives it *)

Module Raft.

Inductive ServerSuffrage := Voter | Nonvoter | Staging.

Record Server := mkServer {
  Suffrage : ServerSuffrage;
  ID : string;
  Address : string
}.

Inductive RaftState := Follower | Candidate | Leader | Shutdown.

Definition ErrNotLeader : error := errorString "node is not the leader".
Definition ErrRaftShutdown : error := errorString "raft is already shutdown".

(** The node: its own id ([Config.LocalID]), its view of the cluster (the
    latest configuration) and its role. *)
Record Raft := mkRaft { LocalID : string; Servers : list Server; State : RaftState }.

(** Membership changes and [Apply] are accepted by the leader only. *)
Definition leaderCheck (r : Raft) : option error :=
  match State r with
  | Leader => None
  | Shutdown => Some ErrRaftShutdown
  | _ => Some ErrNotLeader
  end.

Definition GetConfiguration (r : Raft) : option error * list Server :=
  (None, Servers r).

(** [checkConfiguration]: the configurations the library refuses. Its
    messages end with the configuration or the entry printed; the text
    kept here is their fixed part. *)
Fixpoint checkServers (srvs : list Server) (idSet addressSet : gset string) (voters : nat)
  : option error :=
  match srvs with
  | [] =>
      if (voters =? 0)%nat
      then Some (errorString "need at least one voter in configuration")
      else None
  | server :: rest =>
      if bool_decide (ID server = EmptyString)
      then Some (errorString "empty ID in configuration")
      else if bool_decide (Address server = EmptyString)
      then Some (errorString "empty address in configuration")
      else if bool_decide (ID server ∈ idSet)
      then Some (errorString "found duplicate ID in configuration")
      else if bool_decide (Address server ∈ addressSet)
      then Some (errorString "found duplicate address in configuration")
      else checkServers rest ({[ID server]} ∪ idSet) ({[Address server]} ∪ addressSet)
             (match Suffrage server with Voter => S voters | _ => voters end)
  end.

Definition checkConfiguration (srvs : list Server) : option error :=
  checkServers srvs ∅ ∅ 0.

(** [hasVote]: the first server under the id decides. *)
Fixpoint hasVote (srvs : list Server) (id : string) : bool :=
  match srvs with
  | [] => false
  | server :: rest =>
      if decide (ID server = id)
      then match Suffrage server with Voter => true | _ => false end
      else hasVote rest id
  end.

(** The first server under the id leaves the configuration. *)
Fixpoint removeServer (srvs : list Server) (id : string) : list Server :=
  match srvs with
  | [] => []
  | s :: rest => if decide (ID s = id) then rest else s :: removeServer rest id
  end.

(** A server already known under [id] gets the new address and a vote;
    otherwise the new voter joins at the end of the configuration. *)
Fixpoint addVoter (srvs : list Server) (id addr : string) : list Server :=
  match srvs with
  | [] => [mkServer Voter id addr]
  | s :: rest =>
      if decide (ID s = id) then mkServer Voter id addr :: rest
      else s :: addVoter rest id addr
  end.

Inductive ConfigurationChangeCommand :=
| AddVoterCommand (serverID serverAddress : string)
| RemoveServerCommand (serverID : string).

(** [nextConfiguration], for a request without a [prevIndex]: the change
    is made on a copy, which is then checked. *)
Definition nextConfiguration (current : list Server) (change : ConfigurationChangeCommand)
  : list Server + error :=
  let configuration :=
    match change with
    | AddVoterCommand serverID serverAddress => addVoter current serverID serverAddress
    | RemoveServerCommand serverID => removeServer current serverID
    end in
  match checkConfiguration configuration with
  | Some err => inr err
  | None => inl configuration
  end.

(** A membership change as its future reports it. Off the leader the
    request is refused. On the leader the next configuration is computed;
    one that fails the check is refused and nothing changes; otherwise the
    cluster commits it, and a leader left without a vote in it shuts down
    ([ShutdownOnRemove] is set in [DefaultConfig], which [setupRaft] takes). *)
Definition requestConfigChange (r : Raft) (change : ConfigurationChangeCommand)
  : Raft * option error :=
  match leaderCheck r with
  | Some err => (r, Some err)
  | None =>
      match nextConfiguration (Servers r) change with
      | inr err => (r, Some err)
      | inl configuration =>
          (mkRaft (LocalID r) configuration
             (if hasVote configuration (LocalID r) then State r else Shutdown), None)
      end
  end.

Definition RemoveServer (r : Raft) (id : string) : Raft * option error :=
  requestConfigChange r (RemoveServerCommand id).

Definition AddVoter (r : Raft) (id addr : string) : Raft * option error :=
  requestConfigChange r (AddVoterCommand id addr).

(** No two servers of a configuration share an id or an address. *)
Definition valid (srvs : list Server) : Prop :=
  NoDup (ID <$> srvs) ∧ NoDup (Address <$> srvs).

(** A configuration as the library keeps it, one that passes its check:
    no id or address is empty or there twice, and some server votes. *)
Definition accepted (srvs : list Server) : Prop :=
  checkConfiguration srvs = None.

(** What the check asks for, spelled out. *)
Definition proper (srvs : list Server) : Prop :=
  Forall (fun s => ID s <> EmptyString /\ Address s <> EmptyString) srvs /\
  NoDup (ID <$> srvs) /\ NoDup (Address <$> srvs) /\
  Exists (fun s => Suffrage s = Voter) srvs.


End Raft.

(** ** package log: the distributed log (internal/log/index.go, second part) *)

Module DistributedLog.
Import Raft.

(** What [raft.ApplyFuture.Response] and [fsm.Apply] hand back as
    [interface{}]: nil, an error, or the produce response with its offset. *)
Inductive Response :=
| RespNil
| RespError (err : error)
| RespProduce (Offset : Z).

Record ApplyFuture := mkFuture { fut_Error : option error; fut_Response : Response }.

Definition AppendRequestType : Z := 0.

Section WithLog.

(** The segmented log behind the state machine and the protobuf codec
    are outside these sources: they are taken as they are given. *)
Context {LogT RecordT : Type}.
Variable log_Append : LogT -> RecordT -> LogT * (Z * option error).
Variable Marshal : RecordT -> list byte + error.
Variable Unmarshal : list byte -> RecordT + error.

(** [AppendResponse], the type [Append] asserts the response to be, is
    declared nowhere in these sources, while the state machine answers
    with a pointer to [api.ProduceResponse]: the assertion holds exactly when
    [AppendResponse] names that type, which [aliased] says. *)
Variable aliased : bool.

Record DistributedLog := mkDistributedLog { log : LogT; raft : Raft }.

Definition fsm_applyAppend (lg : LogT) (b : list byte) : LogT * Response :=
  match Unmarshal b with
  | inr err => (lg, RespError err)
  | inl record =>
      match log_Append lg record with
      | (lg', (_, Some err)) => (lg', RespError err)
      | (lg', (offset, None)) => (lg', RespProduce offset)
      end
  end.

(** [fsm.Apply]: [None] is the panic of [buf[0]] on an empty command. *)
Definition fsm_Apply (lg : LogT) (buf : list byte) : option (LogT * Response) :=
  match buf with
  | [] => None
  | reqType :: rest =>
      if reqType =? AppendRequestType then Some (fsm_applyAppend lg rest)
      else Some (lg, RespNil)
  end.

(** [raft.Apply]: a node that is not the leader fails the future; the
    leader commits the command and answers with the state machine's
    response. *)
Definition raft_Apply (l : DistributedLog) (cmd : list byte)
  : option (DistributedLog * ApplyFuture) :=
  match leaderCheck (raft l) with
  | Some err => Some (l, mkFuture (Some err) RespNil)
  | None =>
      '(lg', res) ← fsm_Apply (log l) cmd;
      Some (mkDistributedLog lg' (raft l), mkFuture None res)
  end.

Definition apply (l : DistributedLog) (reqType : Z) (req : RecordT)
  : option (DistributedLog * (Response * option error)) :=
  let buf := [uint8 reqType] in
  match Marshal req with
  | inr err => Some (l, (RespNil, Some err))
  | inl b =>
      let buf := buf ++ b in
      '(l', f) ← raft_Apply l buf;
      match fut_Error f with
      | Some err => Some (l', (RespNil, Some err))
      | None =>
          match fut_Response f with
          | RespError err => Some (l', (RespNil, Some err))
          | res => Some (l', (res, None))
          end
      end
  end.

(** [Append]: the type assertion of the response, to a pointer to
    [AppendResponse], panics ([None]) when the response is not of that
    type. *)
Definition Append (l : DistributedLog) (record : RecordT)
  : option (DistributedLog * (Z * option error)) :=
  '(l', (res, err)) ← apply l AppendRequestType record;
  match err with
  | Some _ => Some (l', (0, None))
  | None =>
      match res with
      | RespProduce offset => if aliased then Some (l', (offset, None)) else None
      | _ => None
      end
  end.

(** The loop of [Join] over the servers of the configuration read at
    entry; [Some e] is an early [return e]. *)
Fixpoint Join_loop (r : Raft) (srvs : list Server) (serverID serverAddr : string)
  : Raft * option (option error) :=
  match srvs with
  | [] => (r, None)
  | srv :: rest =>
      if bool_decide (ID srv = serverID) || bool_decide (Address srv = serverAddr)
      then
        if bool_decide (ID srv = serverID) && bool_decide (Address srv = serverAddr)
        then (r, Some None)
        else
          match RemoveServer r (ID srv) with
          | (r', Some err) => (r', Some (Some err))
          | (r', None) => Join_loop r' rest serverID serverAddr
          end
      else Join_loop r rest serverID serverAddr
  end.

Definition Join (l : DistributedLog) (id addr : string) : DistributedLog * option error :=
  match GetConfiguration (raft l) with
  | (Some err, _) => (l, Some err)
  | (None, servers) =>
      match Join_loop (raft l) servers id addr with
      | (r', Some ret) => (mkDistributedLog (log l) r', ret)
      | (r', None) =>
          let '(r'', err) := AddVoter r' id addr in
          (mkDistributedLog (log l) r'', err)
      end
  end.

End WithLog.

Arguments DistributedLog : clear implicits.
Arguments mkDistributedLog {LogT} _ _.
Arguments log {LogT} _.
Arguments raft {LogT} _.

(** The server [(id, addr)] matches in id or in address. *)
Definition touches (id addr : string) (s : Server) : Prop :=
  ID s = id ∨ Address s = addr.

(** The server [(id, addr)] matches in both. *)
Definition same (id addr : string) (s : Server) : Prop :=
  ID s = id ∧ Address s = addr.

#[export] Instance touches_dec (id addr : string) (s : Server) : Decision (touches id addr s).
Proof. unfold touches. apply _. Defined.

#[export] Instance same_dec (id addr : string) (s : Server) : Decision (same id addr s).
Proof. unfold same. apply _. Defined.

(** A three-node cluster led by this node, a follower's view of it, a
    log that numbers records by its length and one that is full, and a
    codec that frames a value by itself. *)
Definition cluster : list Server :=
  [mkServer Voter "a" "10.0.0.1:8400"; mkServer Voter "b" "10.0.0.2:8400";
   mkServer Voter "c" "10.0.0.3:8400"].

Definition counting_Append (lg : list (list byte)) (r : list byte)
  : list (list byte) * (Z * option error) :=
  (lg ++ [r], (len lg, None)).

Definition full_Append (lg : list (list byte)) (r : list byte)
  : list (list byte) * (Z * option error) :=
  (lg, (0, Some (errorString "no space left on device"))).

Definition id_Marshal (r : list byte) : list byte + error := inl r.
Definition id_Unmarshal (b : list byte) : list byte + error := inl b.

(** [api.Server], the entry of the cluster list. *)
Record ApiServer := mkApiServer { Id : string; RpcAddr : string; IsLeader : bool }.

Definition Leave {LogT} (l : DistributedLog LogT) (id : string)
  : DistributedLog LogT * option error :=
  let '(r', err) := RemoveServer (raft l) id in
  (mkDistributedLog (log l) r', err).

(** [GetServers]: [leader] is the address [raft.Leader] answers with
    (empty when there is no leader). *)
Definition GetServers {LogT} (l : DistributedLog LogT) (leader : string)
  : list ApiServer * option error :=
  match GetConfiguration (raft l) with
  | (Some err, _) => ([], Some err)
  | (None, servers) =>
      ((fun srv => mkApiServer (ID srv) (Address srv) (bool_decide (leader = Address srv)))
         <$> servers, None)
  end.

#[export] Instance error_eq_dec : EqDecision error.
Proof. solve_decision. Defined.

Definition ErrUnexpectedEOF : error := errorString "unexpected EOF".

(** [io.ReadFull(r, b)] for a buffer of [n > 0] bytes: the bytes read,
    what is left of the stream, and [io.EOF] when nothing was left,
    [io.ErrUnexpectedEOF] when the stream ended inside the buffer. *)
Definition io_ReadFull (r : list byte) (n : Z) : list byte * list byte * option error :=
  if len r =? 0 then ([], r, Some EOF)
  else if len r <? n then (r, [], Some ErrUnexpectedEOF)
  else (take (Z.to_nat n) r, drop (Z.to_nat n) r, None).

(** [io.CopyN(&buf, r, n)] into an empty buffer: a negative [n] copies
    nothing and reports no error; a stream shorter than [n] gives [io.EOF]. *)
Definition io_CopyN (r : list byte) (n : Z) : list byte * list byte * option error :=
  if n <? 0 then ([], r, None)
  else if len r <? n then (r, [], Some EOF)
  else (take (Z.to_nat n) r, drop (Z.to_nat n) r, None).

Section WithRestore.

(** The segmented log and the record codec are outside these sources:
    [log_Reset lg off] stands for setting the log's initial offset to
    [off] and calling [Reset]. *)
Context {LogT RecordT : Type}.
Variable log_Append : LogT -> RecordT -> LogT * (Z * option error).
Variable log_Reset : LogT -> Z -> LogT * option error.
Variable Unmarshal_record : list byte -> RecordT + error.
Variable record_Offset : RecordT -> Z.

(** The loop of [fsm.Restore]; [first] is [i == 0]. Every pass takes at
    least the eight bytes of a length off the stream, so [fuel] passes
    are enough for a stream of fewer bytes ([None]: out of fuel). *)
Fixpoint Restore_loop (fuel : nat) (lg : LogT) (r : list byte) (first : bool)
  : option (LogT * option error) :=
  match fuel with
  | O => None
  | S fuel' =>
      match io_ReadFull r Store.lenWidth with
      | (_, _, Some err) =>
          if bool_decide (err = EOF) then Some (lg, None) else Some (lg, Some err)
      | (b, rest, None) =>
          let size := int64 (Uint64 b) in
          match io_CopyN rest size with
          | (_, _, Some err) => Some (lg, Some err)
          | (buf, rest', None) =>
              match Unmarshal_record buf with
              | inr err => Some (lg, Some err)
              | inl record =>
                  match (if first then log_Reset lg (record_Offset record)
                         else (lg, None)) with
                  | (lg1, Some err) => Some (lg1, Some err)
                  | (lg1, None) =>
                      match log_Append lg1 record with
                      | (lg2, (_, Some err)) => Some (lg2, Some err)
                      | (lg2, (_, None)) => Restore_loop fuel' lg2 rest' false
                      end
                  end
              end
          end
      end
  end.

Definition Restore (lg : LogT) (r : list byte) : option (LogT * option error) :=
  Restore_loop (S (length r)) lg r true.

(** Appending records in turn up to the first error, and the same after
    a reset of the log to the offset of the first record. *)
Fixpoint appendEach (lg : LogT) (records : list RecordT) : LogT * option error :=
  match records with
  | [] => (lg, None)
  | record :: rest =>
      match log_Append lg record with
      | (lg', (_, Some err)) => (lg', Some err)
      | (lg', (_, None)) => appendEach lg' rest
      end
  end.

Definition replay (lg : LogT) (records : list RecordT) : LogT * option error :=
  match records with
  | [] => (lg, None)
  | record :: _ =>
      match log_Reset lg (record_Offset record) with
      | (lg1, Some err) => (lg1, Some err)
      | (lg1, None) => appendEach lg1 records
      end
  end.

(** How a stream ends after its whole frames: with nothing, or inside
    the length of a further frame. *)
Definition stream_end (tail : list byte) (res : LogT * option error) : LogT * option error :=
  match res with
  | (lg, Some err) => (lg, Some err)
  | (lg, None) => (lg, if len tail =? 0 then None else Some ErrUnexpectedEOF)
  end.

End WithRestore.

(** A reset that empties the log whatever the offset, and records that
    all carry offset 0, for logs that are plain lists of payloads. *)
Definition empty_Reset (lg : list (list byte)) (off : Z)
  : list (list byte) * option error := ([], None).

Definition no_Offset (record : list byte) : Z := 0.

End DistributedLog.

(** ** package server: the gRPC handlers (ConsumeStream) *)

Module GrpcServer.

(** [api.Record] as the handlers see it. *)
Record Record_ := mkRecord { Value : list byte; Offset : Z }.

(** The [CommitLog] interface of the server's configuration. *)
Class CommitLog (L : Type) := {
  Append : L -> Record_ -> L * (Z * option error);
  Read : L -> Z -> Record_ + error
}.

Definition Consume `{CommitLog L} (commitLog : L) (offset : Z) : Record_ + error :=
  match Read commitLog offset with
  | inr err => inr err
  | inl record => inl record
  end.

(** What one pass of the loop meets: whether the stream's context is
    done, the commit log as it stands then (producers run meanwhile), and
    what [stream.Send] would answer. *)
Record Tick (L : Type) := mkTick {
  done : bool;
  commitLog : L;
  sendErr : option error
}.
Arguments mkTick {L} _ _ _.
Arguments done {L} _.
Arguments commitLog {L} _.
Arguments sendErr {L} _.

(** [req.Offset] and the responses the client has received. *)
Record Stream := mkStream { reqOffset : Z; sent : list Record_ }.

(** One pass of the [for] loop: [Some e] is [return e], [None] goes round
    again. The type switch has the cases [nil], the struct type
    [api.ErrorOffsetOutOfRange] (which continues) and [default] (which
    returns the error). The second names the struct, not the pointer to
    it: it is taken by an error of that dynamic type only, and a compiler
    that refuses a case no value can take refuses this switch. *)
Definition ConsumeStream_pass `{CommitLog L} (t : Tick L) (st : Stream)
  : Stream * option (option error) :=
  if done t then (st, Some None)
  else
    match Consume (commitLog t) (reqOffset st) with
    | inr err =>
        if bool_decide (dynamicType err = T_ErrorOffsetOutOfRange) then (st, None)
        else (st, Some (Some err))
    | inl resp =>
        match sendErr t with
        | Some err => (st, Some (Some err))
        | None => (mkStream (uint64 (reqOffset st + 1)) (sent st ++ [resp]), None)
        end
    end.

Inductive Outcome :=
| Returned (err : option error)
| Looping.

(** The handler over the passes the schedule gives it; [Looping] when it
    has not returned by the end of them. *)
Fixpoint ConsumeStream `{CommitLog L} (ticks : list (Tick L)) (st : Stream)
  : Stream * Outcome :=
  match ticks with
  | [] => (st, Looping)
  | t :: rest =>
      match ConsumeStream_pass t st with
      | (st', Some ret) => (st', Returned ret)
      | (st', None) => ConsumeStream rest st'
      end
  end.

(** A commit log that holds its records in order from offset 0 and
    answers a read past the end with the offset error. *)
Definition list_Read (l : list Record_) (offset : Z) : Record_ + error :=
  match index_at l offset with
  | Some r => inl r
  | None => inr (ErrorOffsetOutOfRange offset)
  end.

Definition list_Append (l : list Record_) (r : Record_)
  : list Record_ * (Z * option error) :=
  (l ++ [mkRecord (Value r) (len l)], (len l, None)).

#[export] Instance listLog : CommitLog (list Record_) :=
  {| Append := list_Append; Read := list_Read |}.

(** A commit log whose reads fail with [io.EOF]. *)
Definition brokenLog : CommitLog (list Record_) :=
  {| Append := list_Append; Read := fun _ _ => inr EOF |}.

Definition first : Record_ := mkRecord [102; 105; 114; 115; 116] 0.
Definition second : Record_ := mkRecord [115; 101; 99; 111; 110; 100] 1.

End GrpcServer.

(** ** package log: the replicator (internal/log/replicator.go) *)

Module Replicator.

(** A [chan struct{}] by its identity. *)
Definition chan := nat.

(** The struct's fields, then the run-time state the methods act on:
    the next channel [make] returns, the channels closed so far, and the
    [replicate] goroutines started (address and leave channel). *)
Record Replicator := mkReplicator {
  logger : option string;
  servers : option (gmap string nat);
  closed : bool;
  close : option chan;
  next_chan : chan;
  closed_chans : gset nat;
  goroutines : list (string * chan)
}.

(** The zero value of the struct in a fresh process. *)
Definition zero : Replicator := mkReplicator None None false None 0%nat ∅ [].

(** The replication tasks the struct holds: a nil map holds none. *)
Definition tasks (r : Replicator) : gmap string nat := default ∅ (servers r).

Definition init (r : Replicator) : Replicator :=
  let r1 :=
    match logger r with
    | None => mkReplicator (Some "replicator") (servers r) (closed r) (close r)
                (next_chan r) (closed_chans r) (goroutines r)
    | Some _ => r
    end in
  let r2 :=
    match servers r1 with
    | None => mkReplicator (logger r1) (Some ∅) (closed r1) (close r1)
                (next_chan r1) (closed_chans r1) (goroutines r1)
    | Some _ => r1
    end in
  match close r2 with
  | None => mkReplicator (logger r2) (servers r2) (closed r2) (Some (next_chan r2))
              (S (next_chan r2)) (closed_chans r2) (goroutines r2)
  | Some _ => r2
  end.

(** [close(c)]: closing a closed channel panics. *)
Definition close_chan (r : Replicator) (c : chan) : option Replicator :=
  if decide (c ∈ closed_chans r) then None
  else Some (mkReplicator (logger r) (servers r) (closed r) (close r)
               (next_chan r) ({[c]} ∪ closed_chans r) (goroutines r)).

Definition Join (r : Replicator) (name addrs : string) : Replicator * option error :=
  let r := init r in
  if closed r then (r, None)
  else
    match tasks r !! name with
    | Some _ => (r, None)
    | None =>
        let c := next_chan r in
        (mkReplicator (logger r) (Some (<[name := c]> (tasks r))) (closed r) (close r)
           (S c) (closed_chans r) (goroutines r ++ [(addrs, c)]), None)
    end.

Definition Leave (r : Replicator) (name : string) : option (Replicator * option error) :=
  let r := init r in
  match tasks r !! name with
  | None => Some (r, None)
  | Some c =>
      r' ← close_chan r c;
      Some (mkReplicator (logger r') (Some (delete name (tasks r'))) (closed r') (close r')
              (next_chan r') (closed_chans r') (goroutines r'), None)
  end.

(** [Close]: [None] is a panic, of [close] on a nil or a closed channel. *)
Definition Close (r : Replicator) : option (Replicator * option error) :=
  let r := init r in
  if closed r then Some (r, None)
  else
    let r := mkReplicator (logger r) (servers r) true (close r)
               (next_chan r) (closed_chans r) (goroutines r) in
    c ← close r;
    r' ← close_chan r c;
    Some (r', None).

(** The state of the channels is in order: channels handed out lie below
    [next_chan], the close channel is open until [Close], every task has
    an open channel of its own that is not the close channel. *)
Definition sound (r : Replicator) : Prop :=
  (forall c, close r = Some c -> (c < next_chan r)%nat) /\
  (closed r = false -> forall c, close r = Some c -> c ∉ closed_chans r) /\
  (forall n c, tasks r !! n = Some c ->
     (c < next_chan r)%nat /\ close r <> Some c /\ c ∉ closed_chans r) /\
  (forall n1 n2 c, tasks r !! n1 = Some c -> tasks r !! n2 = Some c -> n1 = n2) /\
  (forall c, c ∈ closed_chans r -> (c < next_chan r)%nat).

(** The calls a membership handler makes, and a run of them; [None]
    when one of them panics. *)
Inductive call :=
| CallJoin (name addrs : string)
| CallLeave (name : string)
| CallClose.

Definition step (r : Replicator) (c : call) : option (Replicator * option error) :=
  match c with
  | CallJoin name addrs => Some (Join r name addrs)
  | CallLeave name => Leave r name
  | CallClose => Close r
  end.

Fixpoint run (r : Replicator) (cs : list call) : option Replicator :=
  match cs with
  | [] => Some r
  | c :: cs' => '(r', _) ← step r c; run r' cs'
  end.

End Replicator.

(** ** package discovery: membership events (internal/discovery/membership.go) *)

Module Membership.

(** [serf.Member], as far as the handler looks at it. *)
Record Member := mkMember { Name : string; Tags : gmap string string }.

(** [serf.Event]: the member events the handler acts on, and the rest
    (updates, reaps, user events and queries). *)
Inductive Event :=
| EventMemberJoin (Members : list Member)
| EventMemberLeave (Members : list Member)
| EventMemberFailed (Members : list Member)
| EventOther.

(** The [Handler] interface; [None] is a panic inside the handler. *)
Class Handler (H : Type) := {
  Join : H -> string -> string -> option (H * option error);
  Leave : H -> string -> option (H * option error)
}.

#[export] Instance Replicator_Handler : Handler Replicator.Replicator :=
  {| Join := fun r name addr => Some (Replicator.Join r name addr);
     Leave := Replicator.Leave |}.

(** [member.Tags[key]]: a missing key reads as the empty string. *)
Definition tag (member : Member) (key : string) : string :=
  default EmptyString (Tags member !! key).

(** [isLocal]: [local] is the name of [serf.LocalMember]. *)
Definition isLocal (local : string) (member : Member) : bool :=
  bool_decide (Name member = local).

(** [handleJoin] and [handleLeave]: an error of the handler is logged,
    nothing more. *)
Definition handleJoin `{Handler H} (h : H) (member : Member) : option H :=
  '(h', _) ← Join h (Name member) (tag member "rpc_addrs"); Some h'.

Definition handleLeave `{Handler H} (h : H) (member : Member) : option H :=
  '(h', _) ← Leave h (Name member); Some h'.

Fixpoint joinMembers `{Handler H} (local : string) (h : H) (members : list Member)
  : option H :=
  match members with
  | [] => Some h
  | member :: rest =>
      if isLocal local member then joinMembers local h rest
      else h' ← handleJoin h member; joinMembers local h' rest
  end.

Fixpoint leaveMembers `{Handler H} (local : string) (h : H) (members : list Member)
  : option H :=
  match members with
  | [] => Some h
  | member :: rest =>
      if isLocal local member then leaveMembers local h rest
      else h' ← handleLeave h member; leaveMembers local h' rest
  end.

(** [eventHandler] over the events the channel delivers before it is
    closed. *)
Fixpoint eventHandler `{Handler H} (local : string) (h : H) (events : list Event)
  : option H :=
  match events with
  | [] => Some h
  | e :: rest =>
      h' ← match e with
           | EventMemberJoin members => joinMembers local h members
           | EventMemberLeave members | EventMemberFailed members =>
               leaveMembers local h members
           | EventOther => Some h
           end;
      eventHandler local h' rest
  end.

(** The names of the members of an event other than the local one. *)
Definition others (local : string) (members : list Member) : gset string :=
  list_to_set (Name <$> filter (fun m => Name m <> local) members).

(** The peers after an event: those before it, with the others that
    joined, without the others that left or failed. *)
Definition peers_after (local : string) (peers : gset string) (e : Event) : gset string :=
  match e with
  | EventMemberJoin members => peers ∪ others local members
  | EventMemberLeave members | EventMemberFailed members => peers ∖ others local members
  | EventOther => peers
  end.

End Membership.

(** * Properties *)

(** ** Machine arithmetic and slices *)

Section GoFacts.

Lemma uint64_small (x : Z) : 0 <= x < 2 ^ 64 -> uint64 x = x.
Proof. intros Hx. unfold uint64. apply Z.mod_small. exact Hx. Qed.

Lemma uint64_range (x : Z) : 0 <= uint64 x < 2 ^ 64.
Proof. unfold uint64. apply Z.mod_pos_bound. lia. Qed.

Lemma uint64_int (x : Z) : uint64 (int x) = uint64 x.
Proof.
  unfold int, int64, uint64.
  rewrite Zminus_mod, Zmod_mod, <- Zminus_mod.
  f_equal. lia.
Qed.

Lemma int32_small (x : Z) : - 2 ^ 31 <= x < 2 ^ 31 -> int32 x = x.
Proof. intros Hx. unfold int32. rewrite Z.mod_small; lia. Qed.

Lemma len_nonneg {A} (l : list A) : 0 <= len l.
Proof. unfold len. lia. Qed.

Lemma len_app {A} (l k : list A) : len (l ++ k) = len l + len k.
Proof. unfold len. rewrite length_app. lia. Qed.

Lemma index_at_app_last {A} (l : list A) (x : A) : index_at (l ++ [x]) (len l) = Some x.
Proof.
  unfold index_at. rewrite len_app. change (len [x]) with 1.
  pose proof (len_nonneg l) as Hl.
  destruct (Z.leb_spec 0 (len l)); [|lia].
  destruct (Z.ltb_spec (len l) (len l + 1)); [|lia].
  simpl. unfold len. rewrite Nat2Z.id.
  rewrite lookup_app_r by lia. rewrite Nat.sub_diag. reflexivity.
Qed.

End GoFacts.

(** ** The in-memory log *)

Section ServerLogFacts.
Import ServerLog.

(** On a log within the range of an offset, [Append] followed by [Read]
    at the returned offset gives the record back under that offset. *)
Lemma Append_then_Read (l : Log) (r : Record_) :
  len (records l) + 1 < 2 ^ 64 ->
  Read (Append l r).1 (Append l r).2.1
  = Some (mkRecord (Value r) (len (records l)), None).
Proof.
  intros Hlen. pose proof (len_nonneg (records l)) as H0.
  unfold Append, Read. simpl.
  rewrite (uint64_small (len (records l))) by lia.
  rewrite len_app. change (len [_]) with 1.
  rewrite uint64_small by lia.
  destruct (Z.leb_spec (len (records l) + 1) (len (records l))) as [Hle|_]; [lia|].
  rewrite index_at_app_last. reflexivity.
Qed.

(** C3. Appending a record [r] to a freshly created log succeeds, and
    reading the log at the offset [Append] returned succeeds with a record
    that carries the value bytes of [r] and that very offset. *)
Theorem Append_Read_round_trip (r : Record_) :
  exists l off got,
    Append NewLog r = (l, (off, None)) /\
    Read l off = Some (got, None) /\
    Value got = Value r /\
    Offset got = off.
Proof.
  exists (Append NewLog r).1, (Append NewLog r).2.1,
         (mkRecord (Value r) (len (records NewLog))).
  split; [reflexivity|].
  split; [apply Append_then_Read; simpl; unfold len; simpl; lia|].
  split; reflexivity.
Qed.

Lemma AppendAll_offsets (rs : list Record_) : forall l : Log,
  len (records l) + len rs <= 2 ^ 64 ->
  (AppendAll l rs).2
  = (fun i => (len (records l) + Z.of_nat i, None)) <$> seq 0 (length rs).
Proof.
  induction rs as [|r rs IH]; intros l Hlen; [reflexivity|].
  pose proof (len_nonneg (records l)) as H0.
  pose proof (len_nonneg rs) as H1.
  change (len (r :: rs)) with (Z.of_nat (S (length rs))) in Hlen.
  fold (len rs) in H1. unfold len in Hlen, H1.
  simpl AppendAll.
  destruct (AppendAll _ rs) as [l2 out] eqn:Hrest.
  simpl. f_equal.
  - rewrite uint64_small by (unfold len; lia). f_equal. lia.
  - specialize (IH (mkLog (records l ++ [mkRecord (Value r) (uint64 (len (records l)))]))).
    rewrite Hrest in IH. simpl in IH. rewrite IH.
    + rewrite <- fmap_S_seq, <- list_fmap_compose.
      apply list_fmap_ext. intros _ i _. simpl.
      rewrite len_app. change (len [_]) with 1. f_equal. lia.
    + rewrite len_app. change (len [_]) with 1. unfold len. lia.
Qed.

(** C4. The calls of a client that appends the records [rs] one after the
    other to a fresh log all succeed, and the i-th of them (from zero)
    returns offset i: the offsets are 0, 1, 2, ... with no gap. The
    bound on the number of records is the range of an offset; a Go slice
    is shorter than that. *)
Theorem Append_offsets_sequential (rs : list Record_) :
  len rs <= 2 ^ 64 ->
  (AppendAll NewLog rs).2 = (fun i => (Z.of_nat i, None)) <$> seq 0 (length rs).
Proof.
  intros Hlen. rewrite AppendAll_offsets by (simpl; unfold len in *; simpl; lia).
  apply list_fmap_ext. intros _ i _. simpl. f_equal.
Qed.

Lemma Append_offsets_sequential_witness :
  (AppendAll NewLog [mkRecord [104; 105] 0; mkRecord [] 9; mkRecord [33] 4]).2
  = [(0, None); (1, None); (2, None)].
Proof.
  exact (Append_offsets_sequential
           [mkRecord [104; 105] 0; mkRecord [] 9; mkRecord [33] 4]
           ltac:(vm_compute; discriminate)).
Defined.

End ServerLogFacts.

(** ** The store *)

Section StoreFacts.
Import Store.
Context `{Writer W}.

(** What a call of [Append] that returns no error has done. *)
Lemma Append_ok (s : store W) (p : list byte) (s' : store W) (n pos : Z) :
  Append s p = (s', (n, pos, None)) ->
  n = uint64 (len p + lenWidth) /\ pos = size s /\
  size s' = uint64 (size s + uint64 (len p + lenWidth)).
Proof.
  unfold Append, binary_Write.
  destruct (write (buf s) _) as [b1 [k1 [e1|]]]; [intros [=]|].
  destruct (write b1 p) as [b2 [w [e2|]]] eqn:Hw; [intros [=]|].
  apply write_full in Hw. subst w.
  rewrite uint64_int. intros [= <- <- <-]. simpl. auto.
Qed.

(** What a call of [Append] that returns an error has done. *)
Lemma Append_err (s : store W) (p : list byte) (s' : store W) (n pos : Z) (err : error) :
  Append s p = (s', (n, pos, Some err)) ->
  n = 0 /\ pos = 0 /\ size s' = size s.
Proof.
  unfold Append, binary_Write.
  destruct (write (buf s) _) as [b1 [k1 [e1|]]]; [intros [= <- <- <- _]; auto|].
  destruct (write b1 p) as [b2 [w [e2|]]]; intros [= <- <- <-]; auto.
Qed.

Lemma frames_total_nonneg (ps : list (list byte)) : 0 <= frames_total ps.
Proof.
  induction ps as [|p ps IH]; simpl; [lia|].
  unfold framed, lenWidth. pose proof (len_nonneg p). lia.
Qed.

Lemma AppendAll_size (ps : list (list byte)) : forall s : store W,
  0 <= size s -> size s + frames_total ps < 2 ^ 64 ->
  size (AppendAll s ps).1 = size s + frames_appended ps (AppendAll s ps).2.
Proof.
  induction ps as [|p ps IH]; intros s H0 Hsum; simpl; [lia|].
  simpl in Hsum. pose proof (frames_total_nonneg ps) as Hps.
  pose proof (len_nonneg p) as Hp. unfold framed, lenWidth in *.
  destruct (Append s p) as [s1 [[n pos] [err|]]] eqn:Happ.
  - apply Append_err in Happ. destruct Happ as (_ & _ & Hs1).
    specialize (IH s1). destruct (AppendAll s1 ps) as [s2 out]. simpl in *.
    rewrite IH; lia.
  - apply Append_ok in Happ. destruct Happ as (_ & _ & Hs1).
    unfold lenWidth in Hs1.
    rewrite (uint64_small (len p + 8)) in Hs1 by lia.
    rewrite uint64_small in Hs1 by lia.
    specialize (IH s1). destruct (AppendAll s1 ps) as [s2 out]. simpl in *.
    rewrite IH; lia.
Qed.

(** C5. On a store whose size field is a uint64 value, a call of [Append]
    with payload [p] that returns no error returns [8 + len p] as the
    bytes written and the size before the call as the position, and
    leaves the size larger by exactly [8 + len p]; and after any run of
    [Append] calls the size is the size at the start plus the framed
    lengths of the payloads appended without error (from an empty file:
    exactly their sum). Sizes stay within 64 bits, as a file's size does. *)
Theorem store_Append_accounting (s : store W) :
  0 <= size s ->
  (forall p s' n pos,
      size s + lenWidth + len p < 2 ^ 64 ->
      Append s p = (s', (n, pos, None)) ->
      n = lenWidth + len p /\ pos = size s /\ size s' = size s + (lenWidth + len p)) /\
  (forall ps,
      size s + frames_total ps < 2 ^ 64 ->
      size (AppendAll s ps).1 = size s + frames_appended ps (AppendAll s ps).2).
Proof.
  intros H0. split.
  - intros p s' n pos Hfit Happ. pose proof (len_nonneg p) as Hp.
    apply Append_ok in Happ. destruct Happ as (-> & -> & ->).
    unfold lenWidth in *.
    rewrite !(uint64_small (len p + 8)) by lia.
    rewrite uint64_small by lia. lia.
  - intros ps Hfit. apply AppendAll_size; assumption.
Qed.

(** C6. A call of [Append] that returns an error, whether the write of the
    length header failed or the write of the payload after it, leaves the
    size field as it was (and reports zero bytes at position zero). *)
Theorem store_Append_failure_keeps_size
  (s : store W) (p : list byte) (s' : store W) (n pos : Z) (err : error) :
  Append s p = (s', (n, pos, Some err)) ->
  size s' = size s /\ n = 0 /\ pos = 0.
Proof.
  intros Happ. apply Append_err in Happ. tauto.
Qed.

End StoreFacts.

Section StoreWitnesses.
Import Store.

(** A store on an empty file over a device with room for 30 bytes; the
    second frame does not fit. *)
Lemma store_Append_accounting_witness :
  let s := mkStore (mkQuota [] 30 None) 0 in
  (Append s [72; 105]).2 = (10, 0, None) /\
  size (Append s [72; 105]).1 = 10 /\
  size (AppendAll s [[72; 105]; [1; 2; 3]; [4; 5; 6; 7; 8; 9]]).1 = 21.
Proof.
  intros s.
  destruct (store_Append_accounting s ltac:(simpl; lia)) as [Hone Hrun].
  destruct (Hone [72; 105] (Append s [72; 105]).1 10 0
              ltac:(vm_compute; reflexivity) eq_refl) as (_ & _ & Hsize).
  split; [reflexivity|]. split; [exact Hsize|].
  rewrite (Hrun [[72; 105]; [1; 2; 3]; [4; 5; 6; 7; 8; 9]] ltac:(vm_compute; reflexivity)).
  reflexivity.
Defined.

(** The header fits the 10 bytes left and the 5-byte payload does not: the
    frame is torn and the size stays 0. *)
Lemma store_Append_failure_keeps_size_witness :
  let s := mkStore (mkQuota [] 10 None) 0 in
  (Append s [1; 2; 3; 4; 5]).2 = (0, 0, Some ErrShortWrite) /\
  taken (buf (Append s [1; 2; 3; 4; 5]).1) = [0; 0; 0; 0; 0; 0; 0; 5; 1; 2] /\
  size (Append s [1; 2; 3; 4; 5]).1 = 0.
Proof.
  intros s.
  split; [reflexivity|]. split; [reflexivity|].
  exact (proj1 (store_Append_failure_keeps_size s [1; 2; 3; 4; 5]
                  (Append s [1; 2; 3; 4; 5]).1 0 0 ErrShortWrite eq_refl)).
Defined.

(** With 3 bytes left the header itself is cut short: same outcome. *)
Lemma store_Append_header_failure :
  let s := mkStore (mkQuota [] 3 None) 40 in
  (Append s [1; 2; 3; 4; 5]).2 = (0, 0, Some ErrShortWrite) /\
  taken (buf (Append s [1; 2; 3; 4; 5]).1) = [0; 0; 0] /\
  size (Append s [1; 2; 3; 4; 5]).1 = 40.
Proof. intros s. repeat split; reflexivity. Qed.

End StoreWitnesses.

(** ** The index *)

Section IndexFacts.
Import Index.

Lemma entWidth_12 : entWidth = 12.
Proof. reflexivity. Qed.

(** Within the range of a relative offset, and on an index in order, the
    machine arithmetic of [Read] is the arithmetic of the specification. *)
Lemma Read_in_range (i : index) (in_ : Z) :
  whole i -> -1 <= in_ < 2 ^ 31 -> Read i in_ = Read_spec i in_.
Proof.
  intros (H0 & Hmod & Hcnt) Hin. unfold Read, Read_spec.
  rewrite entWidth_12 in *. unfold offWidth.
  destruct (Z.eqb_spec (size i) 0) as [|Hne]; [reflexivity|].
  assert (Hsz : 12 <= size i).
  { pose proof (Z.div_mod (size i) 12 ltac:(lia)) as Hd. rewrite Hmod in Hd.
    destruct (Z.le_gt_cases (size i / 12) 0); lia. }
  assert (Hq : 1 <= size i / 12) by (apply Z.div_le_lower_bound; lia).
  set (rel := if in_ =? -1 then size i / 12 - 1 else in_).
  assert (Hrel : 0 <= rel < 2 ^ 31).
  { subst rel. destruct (Z.eqb_spec in_ (-1)); lia. }
  assert (Hout : (if in_ =? -1 then int32 (uint64 (size i / 12 - 1)) else int32 in_) = rel).
  { subst rel. destruct (Z.eqb_spec in_ (-1)).
    - rewrite uint64_small by lia. apply int32_small. lia.
    - apply int32_small. lia. }
  rewrite Hout.
  rewrite (uint64_small rel) by lia.
  rewrite (uint64_small (rel * 12)) by lia.
  rewrite !uint64_small by lia.
  reflexivity.
Qed.


(** The index [one_entry] is what one [Write] leaves of a fresh index. *)
Lemma one_entry_written : Write (newIndex [] 24) 7 300 = Some (one_entry, None).
Proof. vm_compute. reflexivity. Qed.




End IndexFacts.

Section IndexWriteFacts.
Import Index.

Lemma be_encode_length (n : nat) (v : Z) : length (be_encode n v) = n.
Proof. induction n as [|n IH]; simpl; [reflexivity|]. now rewrite IH. Qed.

Lemma slice_put_ok {A} (s : list A) (lo hi : Z) (bs : list A) :
  0 <= lo -> lo <= hi -> hi <= len s -> len bs = hi - lo ->
  slice_put s lo hi bs = Some (take (Z.to_nat lo) s ++ bs ++ drop (Z.to_nat hi) s).
Proof.
  intros H0 H1 H2 H3. unfold slice_put.
  destruct (Z.leb_spec 0 lo); [|lia].
  destruct (Z.leb_spec lo hi); [|lia].
  destruct (Z.leb_spec hi (len s)); [|lia].
  destruct (Z.eqb_spec (len bs) (hi - lo)); [|lia].
  reflexivity.
Qed.

Lemma slice_ok {A} (s : list A) (lo hi : Z) :
  0 <= lo -> lo <= hi -> hi <= len s ->
  slice s lo hi = Some (take (Z.to_nat (hi - lo)) (drop (Z.to_nat lo) s)).
Proof.
  intros H0 H1 H2. unfold slice.
  destruct (Z.leb_spec 0 lo); [|lia].
  destruct (Z.leb_spec lo hi); [|lia].
  destruct (Z.leb_spec hi (len s)); [|lia].
  reflexivity.
Qed.

(** Two stores through adjacent sub-slices, as [Write] does them: the
    bytes before and after the two windows stay. *)
Lemma put_entry {A} (m e1 e2 : list A) (a : nat) :
  (a + length e1 + length e2 <= length m)%nat ->
  take (a + length e1) (take a m ++ e1 ++ drop (a + length e1) m) ++
  e2 ++ drop (a + length e1 + length e2) (take a m ++ e1 ++ drop (a + length e1) m)
  = take a m ++ (e1 ++ e2) ++ drop (a + length e1 + length e2) m.
Proof.
  intros Hfit.
  assert (Ha : length (take a m) = a) by (rewrite length_take; lia).
  rewrite (app_assoc (take a m) e1).
  rewrite take_app_length' by (rewrite length_app; lia).
  rewrite drop_app_ge by (rewrite length_app; lia).
  rewrite length_app, Ha, drop_drop.
  replace (a + length e1 + (a + length e1 + length e2 - (a + length e1)))%nat
    with (a + length e1 + length e2)%nat by lia.
  rewrite <- !app_assoc. reflexivity.
Qed.

(** What [Write] computes when no addition overflows: end-of-data and
    the index untouched when the entry does not fit the mapping, the
    entry stored at [size] and [size] advanced when it does. *)
Lemma Write_cases (i : index) (off pos : Z) :
  0 <= size i -> size i + entWidth < 2 ^ 64 -> len (mmap i) < 2 ^ 64 ->
  Write i off pos =
    if len (mmap i) <? size i + entWidth then Some (i, Some EOF)
    else Some (mkIndex (take (Z.to_nat (size i)) (mmap i)
                        ++ (PutUint32 (uint32 off) ++ PutUint64 pos)
                        ++ drop (Z.to_nat (size i + entWidth)) (mmap i))
                       (size i + entWidth), None).
Proof.
  intros H0 Hov Hlen. unfold Write. rewrite entWidth_12 in *. unfold offWidth.
  pose proof (len_nonneg (mmap i)) as Hm.
  set (e1 := PutUint32 (uint32 off)). set (e2 := PutUint64 pos).
  assert (He1 : length e1 = 4%nat) by apply be_encode_length.
  assert (He2 : length e2 = 8%nat) by apply be_encode_length.
  clearbody e1 e2.
  rewrite (uint64_small (len (mmap i))) by lia.
  rewrite !uint64_small by lia.
  destruct (Z.ltb_spec (len (mmap i)) (size i + 12)) as [|Hfit]; [reflexivity|].
  unfold len in Hfit.
  rewrite slice_put_ok; [|lia|lia|unfold len; lia|unfold len; lia].
  simpl mbind. cbn beta iota.
  set (a := Z.to_nat (size i)).
  assert (Ha4 : Z.to_nat (size i + 4) = (a + length e1)%nat) by (subst a; lia).
  assert (Ha12 : Z.to_nat (size i + 12) = (a + length e1 + length e2)%nat)
    by (subst a; lia).
  rewrite slice_put_ok.
  - simpl mbind. cbn beta iota. rewrite Ha4, Ha12, put_entry by lia.
    reflexivity.
  - lia.
  - lia.
  - rewrite !len_app. unfold len. rewrite length_take, length_drop. lia.
  - unfold len. lia.
Qed.

(** C8. For every relative offset and store position, on an index whose
    size and mapping length are uint64 values with room for the addition:
    [Write] returns end-of-data exactly when [size + entWidth] exceeds the
    length of the mapping, and then changes nothing; otherwise it returns
    no error, the 12 bytes from [size] on are the big-endian offset and
    position, [size] has advanced by one entry width, and the mapping is
    as long as before with every byte below the old [size] (the entries
    written earlier) and above the new one as it was. *)
Theorem index_Write_behaviour (i : index) (off pos : Z) :
  0 <= size i -> size i + entWidth < 2 ^ 64 -> len (mmap i) < 2 ^ 64 ->
  ((exists i', Write i off pos = Some (i', Some EOF)) <->
   len (mmap i) < size i + entWidth) /\
  (len (mmap i) < size i + entWidth -> Write i off pos = Some (i, Some EOF)) /\
  (size i + entWidth <= len (mmap i) ->
   exists i',
     Write i off pos = Some (i', None) /\
     size i' = size i + entWidth /\
     slice (mmap i') (size i) (size i + entWidth)
       = Some (PutUint32 (uint32 off) ++ PutUint64 pos) /\
     len (mmap i') = len (mmap i) /\
     take (Z.to_nat (size i)) (mmap i') = take (Z.to_nat (size i)) (mmap i) /\
     drop (Z.to_nat (size i')) (mmap i') = drop (Z.to_nat (size i')) (mmap i)).
Proof.
  intros H0 Hov Hlen. pose proof (Write_cases i off pos H0 Hov Hlen) as Hw.
  pose proof (len_nonneg (mmap i)) as Hm.
  destruct (Z.ltb_spec (len (mmap i)) (size i + entWidth)) as [Hlt|Hfit].
  - split; [|split].
    + split; [intros _; exact Hlt|intros _; exists i; exact Hw].
    + intros _. exact Hw.
    + intros Hge. lia.
  - split; [|split].
    + split; [|lia]. intros [i' Hi']. rewrite Hw in Hi'. discriminate.
    + intros Hlt. lia.
    + intros _. eexists. split; [exact Hw|]. cbn [mmap size].
      rewrite entWidth_12 in *.
      set (a := Z.to_nat (size i)).
      set (e := PutUint32 (uint32 off) ++ PutUint64 pos).
      assert (He : length e = 12%nat).
      { subst e. unfold PutUint32, PutUint64.
        rewrite length_app, !be_encode_length. reflexivity. }
      assert (Ha : length (take a (mmap i)) = a).
      { rewrite length_take. unfold len in Hfit. subst a. lia. }
      assert (Hlen' : length (take a (mmap i) ++ e ++ drop (Z.to_nat (size i + 12)) (mmap i))
                      = length (mmap i)).
      { rewrite !length_app, Ha, He, length_drop. unfold len in Hfit. subst a. lia. }
      split; [reflexivity|]. split; [|split; [|split]].
      * rewrite slice_ok; [|lia|lia|unfold len; rewrite Hlen'; exact Hfit].
        fold a. rewrite drop_app_length' by (symmetry; exact Ha).
        replace (Z.to_nat (size i + 12 - size i)) with (length e) by (rewrite He; lia).
        rewrite take_app_length. reflexivity.
      * unfold len. rewrite Hlen'. reflexivity.
      * rewrite take_app_length' by (symmetry; exact Ha). reflexivity.
      * rewrite app_assoc. rewrite drop_app_length'; [reflexivity|].
        rewrite length_app, Ha, He. subst a. lia.
Qed.

Lemma index_Write_behaviour_witness :
  exists i',
    Write (newIndex [] 24) 7 300 = Some (i', None) /\
    size i' = 12 /\
    slice (mmap i') 0 12 = Some [0; 0; 0; 7; 0; 0; 0; 0; 0; 0; 1; 44].
Proof.
  destruct (index_Write_behaviour (newIndex [] 24) 7 300
              ltac:(vm_compute; discriminate) ltac:(vm_compute; reflexivity)
              ltac:(vm_compute; reflexivity))
    as (_ & _ & Hfit).
  destruct (Hfit ltac:(vm_compute; discriminate)) as (i' & Hw & Hs & Hent & _).
  exists i'. split; [exact Hw|]. split; [exact Hs|]. exact Hent.
Defined.

End IndexWriteFacts.

(** ** The index: what was written is what is read *)

Section IndexRoundTrip.
Import Index.

Lemma be_decode_encode_from (n : nat) (v : Z) : forall a : Z,
  fold_left (fun acc b => acc * 256 + b) (be_encode n v) a
  = a * 2 ^ (8 * Z.of_nat n) + v mod 2 ^ (8 * Z.of_nat n).
Proof.
  induction n as [|n IH]; intros a.
  - simpl. rewrite Z.mod_1_r. lia.
  - cbn [be_encode fold_left]. rewrite IH. unfold uint8.
    replace (8 * Z.of_nat (S n)) with (8 * Z.of_nat n + 8) by lia.
    rewrite Z.pow_add_r by lia.
    rewrite (Z.rem_mul_r v (2 ^ (8 * Z.of_nat n)) (2 ^ 8)) by lia.
    change (2 ^ 8) with 256. lia.
Qed.

(** Decoding the big-endian bytes of [v] gives [v] within its width. *)
Lemma be_decode_encode (n : nat) (v : Z) :
  be_decode (be_encode n v) = v mod 2 ^ (8 * Z.of_nat n).
Proof. unfold be_decode. rewrite be_decode_encode_from. lia. Qed.

Lemma slice_middle {A} (pre e post : list A) (lo hi : Z) :
  lo = len pre -> hi = len pre + len e ->
  slice (pre ++ e ++ post) lo hi = Some e.
Proof.
  intros -> ->. pose proof (len_nonneg pre). pose proof (len_nonneg e).
  rewrite slice_ok; [|lia|lia|rewrite !len_app; pose proof (len_nonneg post); lia].
  unfold len. rewrite Nat2Z.id.
  rewrite drop_app_length.
  replace (Z.to_nat (_ + _ - _)) with (length e) by lia.
  rewrite take_app_length. reflexivity.
Qed.

(** After a [Write] that returned no error, [Read] of the last entry
    returns the offset and the position written, and the index is still
    in order. *)
Lemma Read_after_Write (i i' : index) (off pos : Z) :
  whole i -> size i / entWidth < 2 ^ 31 -> len (mmap i) < 2 ^ 64 ->
  Write i off pos = Some (i', None) ->
  whole i' /\ size i' = size i + entWidth /\
  Read i' (-1) = Some (int32 off, uint64 pos, None).
Proof.
  intros (H0 & Hmod & Hcnt) Hroom Hlen Hw.
  rewrite entWidth_12 in *.
  assert (Hsz : size i = 12 * (size i / 12)).
  { pose proof (Z.div_mod (size i) 12 ltac:(lia)). lia. }
  assert (Hov : size i + entWidth < 2 ^ 64) by (rewrite entWidth_12; lia).
  rewrite (Write_cases i off pos H0 Hov Hlen) in Hw. rewrite entWidth_12 in *.
  destruct (Z.ltb_spec (len (mmap i)) (size i + 12)) as [|Hfit]; [discriminate|].
  assert (Hd1 : Uint32 (PutUint32 (uint32 off)) = uint32 off).
  { unfold Uint32, PutUint32. rewrite be_decode_encode.
    change (2 ^ (8 * Z.of_nat 4)) with (2 ^ 32). unfold uint32. apply Zmod_mod. }
  assert (Hd2 : Uint64 (PutUint64 pos) = uint64 pos).
  { unfold Uint64, PutUint64. rewrite be_decode_encode. reflexivity. }
  assert (He1 : len (PutUint32 (uint32 off)) = 4)
    by (unfold len, PutUint32; now rewrite be_encode_length).
  assert (He2 : len (PutUint64 pos) = 8)
    by (unfold len, PutUint64; now rewrite be_encode_length).
  set (e1 := PutUint32 (uint32 off)) in *. set (e2 := PutUint64 pos) in *.
  clearbody e1 e2.
  injection Hw as <-.
  assert (Hwhole : whole (mkIndex
            (take (Z.to_nat (size i)) (mmap i)
             ++ (e1 ++ e2) ++ drop (Z.to_nat (size i + 12)) (mmap i)) (size i + 12))).
  { unfold whole. cbn [size]. rewrite entWidth_12.
    replace (size i + 12) with (size i + 1 * 12) by lia.
    rewrite Z_mod_plus_full, Z_div_plus_full by lia. lia. }
  split; [exact Hwhole|]. split; [reflexivity|].
  rewrite Read_in_range by (exact Hwhole || lia).
  unfold Read_spec. cbn [size mmap]. rewrite entWidth_12. unfold offWidth.
  destruct (Z.eqb_spec (size i + 12) 0) as [|_]; [lia|].
  change (-1 =? -1) with true. cbv iota.
  replace ((size i + 12) / 12 - 1) with (size i / 12)
    by (replace (size i + 12) with (size i + 1 * 12) by lia;
        rewrite Z_div_plus_full by lia; lia).
  replace (size i / 12 * 12) with (size i) by lia.
  destruct (Z.ltb_spec (size i + 12) (size i + 12)) as [|_]; [lia|].
  assert (Hpre : len (take (Z.to_nat (size i)) (mmap i)) = size i).
  { unfold len in *. rewrite length_take. lia. }
  rewrite <- (app_assoc e1).
  rewrite (slice_middle _ e1 _ (size i) (size i + 4)) by lia.
  cbn [mbind option_bind].
  rewrite (app_assoc (take _ _) e1).
  rewrite (slice_middle _ e2 _ (size i + 4) (size i + 12)) by (rewrite len_app; lia).
  cbn [mbind option_bind].
  rewrite Hd1, Hd2. f_equal. f_equal. f_equal.
  unfold int32, uint32. rewrite Zplus_mod_idemp_l. reflexivity.
Qed.

(** A [Write] leaves what [Read] returns for the entries written before. *)
Lemma Read_earlier_after_Write (i i' : index) (off pos k : Z) :
  whole i -> size i / entWidth < 2 ^ 31 -> len (mmap i) < 2 ^ 64 ->
  Write i off pos = Some (i', None) ->
  0 <= k < size i / entWidth ->
  Read i' k = Read i k.
Proof.
  intros Hwhole Hroom Hlen Hw Hk.
  destruct (Read_after_Write i i' off pos Hwhole Hroom Hlen Hw) as (Hwhole' & Hsize' & _).
  destruct Hwhole as (H0 & Hmod & Hcnt).
  rewrite entWidth_12 in *.
  assert (Hsz : size i = 12 * (size i / 12)).
  { pose proof (Z.div_mod (size i) 12 ltac:(lia)). lia. }
  assert (Hov : size i + entWidth < 2 ^ 64) by (rewrite entWidth_12; lia).
  rewrite (Write_cases i off pos H0 Hov Hlen) in Hw. rewrite entWidth_12 in *.
  destruct (Z.ltb_spec (len (mmap i)) (size i + 12)) as [|Hfit]; [discriminate|].
  rewrite !Read_in_range by (assumption || lia || (unfold whole; rewrite entWidth_12; lia)).
  injection Hw as <-. unfold Read_spec. cbn [size mmap] in *.
  rewrite entWidth_12. unfold offWidth.
  destruct (Z.eqb_spec (size i + 12) 0) as [|_]; [lia|].
  destruct (Z.eqb_spec (size i) 0) as [|_]; [lia|].
  destruct (Z.eqb_spec k (-1)) as [|_]; [lia|]. cbv zeta.
  destruct (Z.ltb_spec (size i + 12) (k * 12 + 12)) as [|_]; [lia|].
  destruct (Z.ltb_spec (size i) (k * 12 + 12)) as [|_]; [lia|].
  set (e := PutUint32 (uint32 off) ++ PutUint64 pos).
  set (rest := e ++ drop (Z.to_nat (size i + 12)) (mmap i)).
  assert (Hpre : length (take (Z.to_nat (size i)) (mmap i)) = Z.to_nat (size i)).
  { unfold len in *. rewrite length_take. lia. }
  assert (Hsl : forall lo hi, 0 <= lo -> lo <= hi -> hi <= size i ->
            slice (take (Z.to_nat (size i)) (mmap i) ++ rest) lo hi = slice (mmap i) lo hi).
  { intros lo hi Hlo Hhi Hin.
    rewrite !slice_ok by (try rewrite len_app; unfold len in *; lia).
    f_equal.
    rewrite <- (take_drop (Z.to_nat (size i)) (mmap i)) at 2.
    rewrite !drop_app_le by lia.
    rewrite !take_app_le by (rewrite length_drop; lia).
    reflexivity. }
  rewrite !Hsl by lia. reflexivity.
Qed.

End IndexRoundTrip.

(** ** The distributed log *)

Section DistributedLogAppendFacts.
Import Raft DistributedLog.
Context {LogT RecordT : Type}.
Variable log_Append : LogT -> RecordT -> LogT * (Z * option error).
Variable Marshal : RecordT -> list byte + error.
Variable Unmarshal : list byte -> RecordT + error.
Variable aliased : bool.

(** When the apply path succeeds with the state machine's produce
    response, [Append] returns the offset in it if the response has the
    type [Append] asserts, and panics if it has not. *)
Lemma Append_apply_ok (l l' : DistributedLog LogT) (record : RecordT) (offset : Z) :
  apply log_Append Marshal Unmarshal l AppendRequestType record = Some (l', (RespProduce offset, None)) ->
  Append log_Append Marshal Unmarshal aliased l record
  = if aliased then Some (l', (offset, None)) else None.
Proof. intros Happ. unfold Append. rewrite Happ. reflexivity. Qed.

(** C1 (the code departs from the specification). Whenever the apply
    path fails, be it the marshalling, the raft future or an error
    answered by the state machine, [Append] returns offset 0 and a nil
    error: the error of the apply path is dropped, not returned. *)
Theorem Append_drops_apply_error
  (l l' : DistributedLog LogT) (record : RecordT) (res : Response) (err : error) :
  apply log_Append Marshal Unmarshal l AppendRequestType record = Some (l', (res, Some err)) ->
  Append log_Append Marshal Unmarshal aliased l record = Some (l', (0, None)).
Proof. intros Happ. unfold Append. rewrite Happ. reflexivity. Qed.

(** The apply path fails on every node that is not the leader. *)
Lemma apply_not_leader (l : DistributedLog LogT) (record : RecordT) (b : list byte) (err : error) :
  Marshal record = inl b -> leaderCheck (raft l) = Some err ->
  apply log_Append Marshal Unmarshal l AppendRequestType record = Some (l, (RespNil, Some err)).
Proof.
  intros Hm Hl. unfold apply, raft_Apply. rewrite Hm, Hl. reflexivity.
Qed.

End DistributedLogAppendFacts.

Section DistributedLogAppendWitnesses.
Import Raft DistributedLog.

(** On a follower the raft future fails with [ErrNotLeader]; [Append]
    answers offset 0 and no error. *)
Lemma Append_drops_apply_error_witness :
  let l := mkDistributedLog [] (mkRaft "b" cluster Follower) in
  apply counting_Append id_Marshal id_Unmarshal l AppendRequestType [104; 105]
    = Some (l, (RespNil, Some ErrNotLeader)) /\
  Append counting_Append id_Marshal id_Unmarshal true l [104; 105] = Some (l, (0, None)).
Proof.
  intros l. split; [reflexivity|].
  exact (Append_drops_apply_error counting_Append id_Marshal id_Unmarshal true
           l l [104; 105] RespNil ErrNotLeader eq_refl).
Defined.

(** On the leader, an error of the log behind the state machine comes
    back as the response; [Append] answers offset 0 and no error too. *)
Lemma Append_drops_fsm_error :
  let l := mkDistributedLog [] (mkRaft "a" cluster Leader) in
  apply full_Append id_Marshal id_Unmarshal l AppendRequestType [104; 105]
    = Some (l, (RespNil, Some (errorString "no space left on device"))) /\
  Append full_Append id_Marshal id_Unmarshal true l [104; 105] = Some (l, (0, None)).
Proof. intros l. split; reflexivity. Qed.

(** On the leader with a working log the offset comes back, if the
    response has the type [Append] asserts. *)
Lemma Append_returns_offset :
  let l := mkDistributedLog [[1]; [2]] (mkRaft "a" cluster Leader) in
  Append counting_Append id_Marshal id_Unmarshal true l [104; 105]
  = Some (mkDistributedLog [[1]; [2]; [104; 105]] (mkRaft "a" cluster Leader), (2, None)).
Proof. reflexivity. Qed.

End DistributedLogAppendWitnesses.

Section ListFacts.




End ListFacts.

Section RaftFacts.
#[local] Set Warnings "-clear-no-such-hyp".
Import Raft.

Lemma checkServers_None (srvs : list Server) : forall (idSet addressSet : gset string) (voters : nat),
  checkServers srvs idSet addressSet voters = None <->
  Forall (fun s => ID s <> EmptyString /\ Address s <> EmptyString) srvs /\
  NoDup (ID <$> srvs) /\ (forall s, s ∈ srvs -> ID s ∉ idSet) /\
  NoDup (Address <$> srvs) /\ (forall s, s ∈ srvs -> Address s ∉ addressSet) /\
  (voters <> 0%nat \/ Exists (fun s => Suffrage s = Voter) srvs).
Proof.
  induction srvs as [|x srvs IH]; intros idSet addressSet voters.
  - cbn [checkServers]. destruct (Nat.eqb_spec voters 0) as [->|Hv].
    + split; [discriminate|]. intros (_ & _ & _ & _ & _ & [H|H]); [congruence|inversion H].
    + split; [intros _|reflexivity].
      split; [constructor|]. split; [constructor|]. split; [intros s Hs; inversion Hs|].
      split; [constructor|]. split; [intros s Hs; inversion Hs|]. left. exact Hv.
  - cbn [checkServers].
    destruct (decide (ID x = EmptyString)) as [He|He].
    { rewrite bool_decide_eq_true_2 by exact He. split; [discriminate|].
      intros (Hf & _). inversion Hf; subst. tauto. }
    rewrite bool_decide_eq_false_2 by exact He.
    destruct (decide (Address x = EmptyString)) as [Ha|Ha].
    { rewrite bool_decide_eq_true_2 by exact Ha. split; [discriminate|].
      intros (Hf & _). inversion Hf; subst. tauto. }
    rewrite bool_decide_eq_false_2 by exact Ha.
    destruct (decide (ID x ∈ idSet)) as [Hi|Hi].
    { rewrite bool_decide_eq_true_2 by exact Hi. split; [discriminate|].
      intros (_ & _ & Hn & _). exfalso. apply (Hn x); [left|exact Hi]. }
    rewrite bool_decide_eq_false_2 by exact Hi.
    destruct (decide (Address x ∈ addressSet)) as [Hd|Hd].
    { rewrite bool_decide_eq_true_2 by exact Hd. split; [discriminate|].
      intros (_ & _ & _ & _ & Hn & _). exfalso. apply (Hn x); [left|exact Hd]. }
    rewrite bool_decide_eq_false_2 by exact Hd.
    rewrite IH. cbn [fmap list_fmap]. rewrite !NoDup_cons, Forall_cons, Exists_cons.
    split.
    + intros (Hf & HnI & HI & HnA & HA & Hv).
      split; [split; [split; assumption|exact Hf]|].
      split; [split; [|exact HnI]|].
      { intros Hin. apply list_elem_of_fmap in Hin. destruct Hin as (s & Heq & Hs).
        apply (HI s Hs). rewrite <- Heq. set_solver. }
      split.
      { intros s Hs. apply elem_of_cons in Hs. destruct Hs as [->|Hs]; [exact Hi|].
        specialize (HI s Hs). set_solver. }
      split; [split; [|exact HnA]|].
      { intros Hin. apply list_elem_of_fmap in Hin. destruct Hin as (s & Heq & Hs).
        apply (HA s Hs). rewrite <- Heq. set_solver. }
      split.
      { intros s Hs. apply elem_of_cons in Hs. destruct Hs as [->|Hs]; [exact Hd|].
        specialize (HA s Hs). set_solver. }
      destruct (Suffrage x); destruct Hv as [Hv|Hv]; auto; try (right; now left);
        try (left; lia).
    + intros ((_ & Hf) & (HxI & HnI) & HI & (HxA & HnA) & HA & Hv).
      split; [exact Hf|]. split; [exact HnI|]. split.
      { intros s Hs Hin. apply elem_of_union in Hin. destruct Hin as [Hin|Hin].
        - apply elem_of_singleton in Hin. apply HxI. rewrite <- Hin.
          now apply list_elem_of_fmap_2.
        - apply (HI s); [now right|exact Hin]. }
      split; [exact HnA|]. split.
      { intros s Hs Hin. apply elem_of_union in Hin. destruct Hin as [Hin|Hin].
        - apply elem_of_singleton in Hin. apply HxA. rewrite <- Hin.
          now apply list_elem_of_fmap_2.
        - apply (HA s); [now right|exact Hin]. }
      destruct Hv as [Hv|[Hv|Hv]].
      * left. destruct (Suffrage x); lia.
      * left. rewrite Hv. lia.
      * right. exact Hv.
Qed.

(** The check passes exactly on the proper configurations. *)
Lemma accepted_proper (srvs : list Server) : accepted srvs <-> proper srvs.
Proof.
  unfold accepted, checkConfiguration, proper. rewrite checkServers_None.
  split.
  - intros (Hf & HnI & _ & HnA & _ & [Hv|Hv]); [congruence|]. auto.
  - intros (Hf & HnI & HnA & Hv). repeat split; auto; try (intros s _; set_solver).
Qed.

Lemma accepted_valid (srvs : list Server) : accepted srvs -> valid srvs.
Proof. intros H. apply accepted_proper in H. destruct H as (_ & ? & ? & _). now split. Qed.

End RaftFacts.

Section RaftChangeFacts.
Import Raft.










(** Off the leader every membership change is refused and changes nothing. *)
Lemma requestConfigChange_refused (r : Raft) (change : ConfigurationChangeCommand) (err : error) :
  leaderCheck r = Some err -> requestConfigChange r change = (r, Some err).
Proof. intros Hl. unfold requestConfigChange. now rewrite Hl. Qed.

End RaftChangeFacts.

Section DistributedLogJoinFacts.
Import Raft DistributedLog.
Variables id addr : string.


Lemma valid_Address_inj (srvs : list Server) (s s' : Server) :
  NoDup (Address <$> srvs) -> s ∈ srvs -> s' ∈ srvs -> Address s = Address s' -> s = s'.
Proof.
  induction srvs as [|x srvs IH]; intros Hnd Hs Hs' Heq.
  - inversion Hs.
  - simpl in Hnd. apply NoDup_cons in Hnd. destruct Hnd as [Hx Hnd].
    apply elem_of_cons in Hs. apply elem_of_cons in Hs'.
    destruct Hs as [->|Hs], Hs' as [->|Hs'].
    + reflexivity.
    + exfalso. apply Hx. rewrite Heq. now apply list_elem_of_fmap_2.
    + exfalso. apply Hx. rewrite <- Heq. now apply list_elem_of_fmap_2.
    + now apply IH.
Qed.










End DistributedLogJoinFacts.

Section DistributedLogJoinWitnesses.
Import Raft DistributedLog.

Lemma cluster_accepted : accepted cluster.
Proof. vm_compute. reflexivity. Qed.

Lemma cluster_valid : valid cluster.
Proof. exact (accepted_valid _ cluster_accepted). Qed.




End DistributedLogJoinWitnesses.

(** ** The gRPC handler ConsumeStream *)

Section ConsumeStreamFacts.
Import GrpcServer.
Context `{CommitLog L}.

(** No error has the dynamic type the second case of the switch names. *)
Lemma no_error_of_struct_type (err : error) :
  bool_decide (dynamicType err = T_ErrorOffsetOutOfRange) = false.
Proof. destruct err; reflexivity. Qed.

(** A pass whose read fails, the context not done, returns the error of
    the read, whichever it is, and leaves the stream as it is. *)
Lemma pass_read_error (t : Tick L) (st : Stream) (err : error) :
  done t = false ->
  Read (commitLog t) (reqOffset st) = inr err ->
  ConsumeStream_pass t st = (st, Some (Some err)).
Proof.
  intros Hd Hr. unfold ConsumeStream_pass, Consume.
  rewrite Hd, Hr, no_error_of_struct_type. reflexivity.
Qed.

(** A pass that finds the context done returns nil. *)
Lemma pass_done (t : Tick L) (st : Stream) :
  done t = true -> ConsumeStream_pass t st = (st, Some None).
Proof. intros Hd. unfold ConsumeStream_pass. rewrite Hd. reflexivity. Qed.

(** A pass that reads a record and sends it moves to the next offset. *)
Lemma pass_record (t : Tick L) (st : Stream) (record : Record_) :
  done t = false ->
  Read (commitLog t) (reqOffset st) = inl record ->
  sendErr t = None ->
  ConsumeStream_pass t st
  = (mkStream (uint64 (reqOffset st + 1)) (sent st ++ [record]), None).
Proof.
  intros Hd Hr Hs. unfold ConsumeStream_pass, Consume. rewrite Hd, Hr, Hs. reflexivity.
Qed.

(** C2 (the code departs from the specification). Whatever passes are
    still to come, a handler that finds its context not done and whose
    read at the stream's offset fails returns the error of the read and
    ends the stream, the offset and the records sent as they were: so it
    does when the error is the offset error of a read past the end of
    the log, which the handler was to take as not yet written and retry.
    For the rest the handler is as specified: when it finds the context
    done it returns nil; when the read finds a record and the send is
    accepted, it sends the record and goes on at the next offset. *)
Theorem ConsumeStream_behaviour (t : Tick L) (ticks : list (Tick L)) (st : Stream) :
  (forall err,
      done t = false ->
      Read (commitLog t) (reqOffset st) = inr err ->
      ConsumeStream (t :: ticks) st = (st, Returned (Some err))) /\
  (done t = true -> ConsumeStream (t :: ticks) st = (st, Returned None)) /\
  (forall record,
      done t = false ->
      Read (commitLog t) (reqOffset st) = inl record ->
      sendErr t = None ->
      0 <= reqOffset st -> reqOffset st + 1 < 2 ^ 64 ->
      ConsumeStream (t :: ticks) st
      = ConsumeStream ticks (mkStream (reqOffset st + 1) (sent st ++ [record]))).
Proof.
  split; [|split].
  - intros err Hd Hr. cbn [ConsumeStream].
    rewrite (pass_read_error t st err Hd Hr). reflexivity.
  - intros Hd. cbn [ConsumeStream]. rewrite (pass_done t st Hd). reflexivity.
  - intros record Hd Hr Hs H0 H1. cbn [ConsumeStream].
    rewrite (pass_record t st record Hd Hr Hs).
    rewrite uint64_small by lia. reflexivity.
Qed.

End ConsumeStreamFacts.

Section ConsumeStreamWitnesses.
Import GrpcServer.

(** A consumer at offset 1 of a log holding one record: the read fails
    with the offset error, and the handler returns it in its first pass,
    although the record at offset 1 is there by the second. A consumer
    whose context is done returns nil, and one at offset 0 sends the
    first record and goes on at offset 1. *)
Lemma ConsumeStream_behaviour_witness :
  ConsumeStream [mkTick false [first] None; mkTick false [first; second] None;
                 mkTick true [first; second] None] (mkStream 1 [])
  = (mkStream 1 [], Returned (Some (ErrorOffsetOutOfRange 1))) /\
  ConsumeStream [mkTick true [first] None] (mkStream 1 [])
  = (mkStream 1 [], Returned None) /\
  ConsumeStream [mkTick false [first] None; mkTick true [first] None] (mkStream 0 [])
  = ConsumeStream [mkTick true [first] None] (mkStream 1 [first]).
Proof.
  split; [|split].
  - apply (@ConsumeStream_behaviour (list Record_) listLog
             (mkTick false [first] None)
             [mkTick false [first; second] None; mkTick true [first; second] None]
             (mkStream 1 [])); reflexivity.
  - apply (@ConsumeStream_behaviour (list Record_) listLog
             (mkTick true [first] None) [] (mkStream 1 [])); reflexivity.
  - apply (proj2 (proj2 (@ConsumeStream_behaviour (list Record_) listLog
             (mkTick false [first] None) [mkTick true [first] None] (mkStream 0 []))) first);
      [reflexivity|reflexivity|reflexivity|simpl; lia|simpl; lia].
Defined.

(** The streaming scenario: both records are there; the consumer
    receives them in order, and at offset 2 its read fails: the handler
    returns the offset error, and the third record, appended later, is
    never sent. *)
Lemma ConsumeStream_scenario :
  let third := mkRecord [33] 2 in
  ConsumeStream
    [mkTick false [first; second] None; mkTick false [first; second] None;
     mkTick false [first; second] None; mkTick false [first; second] None;
     mkTick false [first; second; third] None; mkTick true [first; second; third] None]
    (mkStream 0 [])
  = (mkStream 2 [first; second], Returned (Some (ErrorOffsetOutOfRange 2))).
Proof. reflexivity. Qed.

(** Any other error of the read ends the stream with that error too. *)
Lemma ConsumeStream_other_error (st : Stream) :
  ConsumeStream_pass (H := brokenLog) (mkTick false [] None) st
  = (st, Some (Some EOF)).
Proof. reflexivity. Qed.

End ConsumeStreamWitnesses.

(** ** The replicator *)

Section ReplicatorFacts.
Import Replicator.

(** [init] fills nil fields only: tasks, goroutines and [closed] stay. *)
Lemma init_tasks (r : Replicator) : tasks (init r) = tasks r.
Proof.
  unfold init, tasks.
  destruct r as [lg [m|] cl [c|] nx cc gs]; destruct lg; reflexivity.
Qed.

Lemma init_goroutines (r : Replicator) : goroutines (init r) = goroutines r.
Proof.
  unfold init.
  destruct r as [lg [m|] cl [c|] nx cc gs]; destruct lg; reflexivity.
Qed.

Lemma init_closed (r : Replicator) : closed (init r) = closed r.
Proof.
  unfold init.
  destruct r as [lg [m|] cl [c|] nx cc gs]; destruct lg; reflexivity.
Qed.

Lemma init_filled (r : Replicator) :
  is_Some (logger (init r)) /\ is_Some (servers (init r)) /\ is_Some (close (init r)).
Proof.
  unfold init.
  destruct r as [lg [m|] cl [c|] nx cc gs]; destruct lg; cbn; repeat split; eexists;
    reflexivity.
Qed.

Lemma init_fixed (r : Replicator) :
  is_Some (logger r) -> is_Some (servers r) -> is_Some (close r) -> init r = r.
Proof.
  intros [lg Hl] [m Hm] [c Hc]. unfold init.
  destruct r as [lg0 m0 cl c0 nx cc gs]. cbn in Hl, Hm, Hc. subst.
  reflexivity.
Qed.

(** After [init] no field is nil, and [init] again changes nothing. *)
Lemma init_init (r : Replicator) : init (init r) = init r.
Proof. destruct (init_filled r) as (Hl & Hm & Hc). now apply init_fixed. Qed.

(** What [Join] does on a closed replicator or for a name it has a task
    for: nothing beyond [init]. *)
Lemma Join_noop (r : Replicator) (name addrs : string) :
  closed r = true \/ is_Some (tasks r !! name) ->
  Join r name addrs = (init r, None).
Proof.
  intros Hcase. unfold Join. rewrite init_closed, init_tasks.
  destruct (closed r); [reflexivity|].
  destruct Hcase as [Hc|[c Hc]]; [discriminate|].
  rewrite Hc. reflexivity.
Qed.

(** A [Close] that returns leaves a closed replicator that [init] does
    not change. *)
Lemma Close_result (r r1 : Replicator) (e : option error) :
  Close r = Some (r1, e) -> e = None /\ closed r1 = true /\ init r1 = r1.
Proof.
  unfold Close. destruct (closed (init r)) eqn:Hc.
  - intros [= <- <-]. rewrite init_init. auto.
  - destruct (init_filled r) as (Hl & Hm & Hcl).
    unfold close_chan. cbn [close closed_chans logger servers closed next_chan goroutines].
    destruct (close (init r)) as [c|] eqn:Hclose; [|discriminate].
    cbn [mbind option_bind].
    destruct (decide (c ∈ closed_chans (init r))); [discriminate|].
    cbn [mbind option_bind]. intros [= <- <-].
    split; [reflexivity|]. split; [reflexivity|].
    apply init_fixed; cbn [logger servers close]; [exact Hl|exact Hm|eexists; reflexivity].
Qed.

(** C10. [Join] for a name the replicator already has a task for, or on
    a closed replicator, returns nil, leaves the task map as it was and
    starts no goroutine; after a [Close], [Join] returns nil and changes
    nothing at all, and so does a second [Close]. *)
Theorem Replicator_Join_Close_idempotent :
  (forall r name addrs,
      closed r = true \/ is_Some (tasks r !! name) ->
      exists r',
        Join r name addrs = (r', None) /\
        tasks r' = tasks r /\ goroutines r' = goroutines r /\ closed r' = closed r) /\
  (forall r r1 e name addrs,
      Close r = Some (r1, e) ->
      e = None /\ Join r1 name addrs = (r1, None) /\ Close r1 = Some (r1, None)).
Proof.
  split.
  - intros r name addrs Hcase. exists (init r).
    split; [apply Join_noop; exact Hcase|].
    split; [apply init_tasks|]. split; [apply init_goroutines|apply init_closed].
  - intros r r1 e name addrs Hclose.
    destruct (Close_result r r1 e Hclose) as (He & Hc & Hi).
    split; [exact He|]. split.
    + rewrite Join_noop by (left; exact Hc). rewrite Hi. reflexivity.
    + unfold Close. rewrite Hi, Hc. reflexivity.
Qed.

(** A replicator that replicates from "b": a second [Join] for "b" starts
    nothing; after [Close], neither a [Join] for "c" nor a second [Close]
    changes it. *)
Lemma Replicator_Join_Close_idempotent_witness :
  let r := (Join zero "b" "10.0.0.2:8400").1 in
  goroutines r = [("10.0.0.2:8400", 1%nat)] /\
  (exists r',
     Join r "b" "10.0.0.9:8400" = (r', None) /\
     tasks r' = tasks r /\ goroutines r' = goroutines r /\ closed r' = closed r) /\
  (exists r1,
     Close r = Some (r1, None) /\
     Join r1 "c" "10.0.0.3:8400" = (r1, None) /\
     Close r1 = Some (r1, None)).
Proof.
  intros r.
  destruct Replicator_Join_Close_idempotent as [Hjoin Hclose].
  split; [reflexivity|]. split.
  - apply (Hjoin r "b" "10.0.0.9:8400"). right. exists 1%nat. reflexivity.
  - destruct (Close r) as [[r1 e]|] eqn:Hc; [|discriminate].
    destruct (Hclose r r1 e "c" "10.0.0.3:8400" Hc) as (-> & Hj & Hc2).
    exists r1. split; [reflexivity|]. split; assumption.
Defined.

End ReplicatorFacts.

(** ** The replicator: no call panics *)

Section ReplicatorSound.
Import Replicator.

Lemma init_view (r : Replicator) :
  tasks (init r) = tasks r /\ closed (init r) = closed r /\
  closed_chans (init r) = closed_chans r /\
  ((exists c, close r = Some c /\ close (init r) = Some c /\
              next_chan (init r) = next_chan r) \/
   (close r = None /\ close (init r) = Some (next_chan r) /\
    next_chan (init r) = S (next_chan r))).
Proof.
  unfold init, tasks.
  destruct r as [lg [m|] cl [c|] nx cc gs]; destruct lg; cbn;
    repeat split; (left; eexists; repeat split; reflexivity) || (right; repeat split; reflexivity).
Qed.

Lemma tasks_mk lg (m : gmap string nat) cl c nx cc gs :
  tasks (mkReplicator lg (Some m) cl c nx cc gs) = m.
Proof. reflexivity. Qed.

Lemma sound_zero : sound zero.
Proof.
  unfold sound, zero, tasks. cbn.
  split; [discriminate|]. split; [discriminate|].
  split; [intros n c Hc; rewrite lookup_empty in Hc; discriminate|].
  split; [intros n1 n2 c Hc; rewrite lookup_empty in Hc; discriminate|].
  intros c Hc. apply not_elem_of_empty in Hc. contradiction.
Qed.

Lemma init_sound (r : Replicator) : sound r -> sound (init r).
Proof.
  intros (I1 & I2 & I3 & I4 & I5).
  destruct (init_view r) as (Ht & Hc & Hcc & Hcase).
  unfold sound. rewrite Ht, Hc, Hcc.
  destruct Hcase as [(c0 & H1 & H2 & H3)|(H1 & H2 & H3)]; rewrite H2, H3.
  - rewrite H1 in *.
    split; [exact I1|]. split; [exact I2|]. split; [exact I3|]. split; [exact I4|exact I5].
  - split; [intros c [= <-]; lia|].
    split; [intros _ c [= <-] Hin; apply I5 in Hin; lia|].
    split; [|split; [exact I4|intros c Hin; apply I5 in Hin; lia]].
    intros n c Hn. destruct (I3 n c Hn) as (Hlt & _ & Hopen).
    split; [lia|]. split; [intros [= <-]; lia|exact Hopen].
Qed.

(** [Join] keeps the channels in order. *)
Lemma Join_sound (r : Replicator) (name addrs : string) :
  sound r -> sound (Join r name addrs).1.
Proof.
  intros Hs. apply init_sound in Hs. unfold Join.
  set (r0 := init r) in *. clearbody r0.
  destruct (closed r0) eqn:Hcl; [exact Hs|].
  destruct (tasks r0 !! name) as [c|] eqn:Hn; [exact Hs|].
  destruct Hs as (I1 & I2 & I3 & I4 & I5).
  unfold sound. cbn [fst]. rewrite tasks_mk.
  cbn [close closed next_chan closed_chans].
  split; [intros c Hc; apply I1 in Hc; lia|].
  split; [intros _ c Hc; apply I2; [exact Hcl|exact Hc]|].
  split; [|split; [|intros c Hc; apply I5 in Hc; lia]].
  - intros n c Hc. destruct (decide (name = n)) as [<-|Hne].
    + rewrite lookup_insert_eq in Hc. injection Hc as <-.
      split; [lia|]. split; [intros Hc; apply I1 in Hc; lia|].
      intros Hin. apply I5 in Hin. lia.
    + rewrite lookup_insert_ne in Hc by exact Hne.
      destruct (I3 n c Hc) as (Hlt & Hx & Hopen). split; [lia|]. split; assumption.
  - intros n1 n2 c H1 H2.
    destruct (decide (name = n1)) as [<-|Hne1], (decide (name = n2)) as [<-|Hne2].
    + reflexivity.
    + rewrite lookup_insert_eq in H1. injection H1 as <-.
      rewrite lookup_insert_ne in H2 by exact Hne2.
      destruct (I3 n2 _ H2) as (Hlt & _). lia.
    + rewrite lookup_insert_eq in H2. injection H2 as <-.
      rewrite lookup_insert_ne in H1 by exact Hne1.
      destruct (I3 n1 _ H1) as (Hlt & _). lia.
    + rewrite lookup_insert_ne in H1 by exact Hne1.
      rewrite lookup_insert_ne in H2 by exact Hne2.
      exact (I4 n1 n2 c H1 H2).
Qed.

(** [Leave] does not panic and keeps the channels in order. *)
Lemma Leave_sound (r : Replicator) (name : string) :
  sound r -> exists r', Leave r name = Some (r', None) /\ sound r'.
Proof.
  intros Hs. apply init_sound in Hs. unfold Leave.
  set (r0 := init r) in *. clearbody r0.
  destruct (tasks r0 !! name) as [c|] eqn:Hn; [|exists r0; split; [reflexivity|exact Hs]].
  destruct Hs as (I1 & I2 & I3 & I4 & I5).
  destruct (I3 name c Hn) as (Hlt & Hx & Hopen).
  unfold close_chan. destruct (decide (c ∈ closed_chans r0)) as [Hin|_]; [contradiction|].
  cbn [mbind option_bind logger servers closed close next_chan closed_chans goroutines].
  eexists. split; [reflexivity|].
  unfold sound. rewrite tasks_mk.
  cbn [close closed next_chan closed_chans].
  split; [exact I1|].
  split; [intros Hcl c0 Hc0 Hin; apply elem_of_union in Hin; destruct Hin as [Hin|Hin];
          [apply elem_of_singleton in Hin; subst c0; contradiction|
           exact (I2 Hcl c0 Hc0 Hin)]|].
  split; [|split].
  - intros n c0 Hc0. destruct (decide (name = n)) as [<-|Hne].
    + rewrite lookup_delete_eq in Hc0. discriminate.
    + rewrite lookup_delete_ne in Hc0 by exact Hne.
      destruct (I3 n c0 Hc0) as (Hlt0 & Hx0 & Hopen0).
      split; [exact Hlt0|]. split; [exact Hx0|].
      intros Hin. apply elem_of_union in Hin. destruct Hin as [Hin|Hin]; [|contradiction].
      apply elem_of_singleton in Hin. subst c0. apply Hne. exact (I4 name n c Hn Hc0).
  - intros n1 n2 c0 H1 H2.
    destruct (decide (name = n1)) as [<-|Hne1];
      [rewrite lookup_delete_eq in H1; discriminate|].
    destruct (decide (name = n2)) as [<-|Hne2];
      [rewrite lookup_delete_eq in H2; discriminate|].
    rewrite lookup_delete_ne in H1 by exact Hne1.
    rewrite lookup_delete_ne in H2 by exact Hne2.
    exact (I4 n1 n2 c0 H1 H2).
  - intros c0 Hin. apply elem_of_union in Hin. destruct Hin as [Hin|Hin].
    + apply elem_of_singleton in Hin. subst c0. exact Hlt.
    + exact (I5 c0 Hin).
Qed.

(** [Close] does not panic and keeps the channels in order. *)
Lemma Close_sound (r : Replicator) :
  sound r -> exists r', Close r = Some (r', None) /\ sound r'.
Proof.
  intros Hs. apply init_sound in Hs.
  destruct (init_filled r) as (_ & _ & [c Hc]). unfold Close.
  set (r0 := init r) in *. clearbody r0.
  destruct (closed r0) eqn:Hcl; [exists r0; split; [reflexivity|exact Hs]|].
  destruct Hs as (I1 & I2 & I3 & I4 & I5).
  cbn [close]. rewrite Hc in *. cbn [mbind option_bind].
  unfold close_chan. cbn [closed_chans logger servers closed close next_chan goroutines].
  destruct (decide (c ∈ closed_chans r0)) as [Hin|_];
    [exfalso; exact (I2 Hcl c eq_refl Hin)|].
  cbn [mbind option_bind]. eexists. split; [reflexivity|].
  unfold sound.
  change (tasks (mkReplicator _ (servers r0) _ _ _ _ _)) with (tasks r0).
  cbn [close closed next_chan closed_chans].
  split; [exact I1|]. split; [discriminate|].
  split; [|split; [exact I4|]].
  - intros n c0 Hc0. destruct (I3 n c0 Hc0) as (Hlt0 & Hx0 & Hopen0).
    split; [exact Hlt0|]. split; [exact Hx0|].
    intros Hin. apply elem_of_union in Hin. destruct Hin as [Hin|Hin]; [|contradiction].
    apply elem_of_singleton in Hin. subst c0. apply Hx0. reflexivity.
  - intros c0 Hin. apply elem_of_union in Hin. destruct Hin as [Hin|Hin].
    + apply elem_of_singleton in Hin. subst c0. exact (I1 c eq_refl).
    + exact (I5 c0 Hin).
Qed.

(** From the zero value, no sequence of [Join], [Leave] and [Close]
    calls panics. *)
Lemma run_sound (cs : list call) : forall r : Replicator,
  sound r -> exists r', run r cs = Some r' /\ sound r'.
Proof.
  induction cs as [|c cs IH]; intros r Hs; [exists r; split; [reflexivity|exact Hs]|].
  cbn [run]. destruct c as [name addrs|name|]; cbn [step].
  - cbn [mbind option_bind]. destruct (Join r name addrs) as [r1 e] eqn:Hj.
    apply IH. pose proof (Join_sound r name addrs Hs) as Hs1.
    rewrite Hj in Hs1. exact Hs1.
  - destruct (Leave_sound r name Hs) as (r1 & -> & Hs1).
    cbn [mbind option_bind]. apply IH. exact Hs1.
  - destruct (Close_sound r Hs) as (r1 & -> & Hs1).
    cbn [mbind option_bind]. apply IH. exact Hs1.
Qed.

(** X26. Starting from the zero value of the struct, whatever calls of
    [Join], [Leave] and [Close] are made and in whatever order, none
    panics: no channel is closed twice and the task map is there when
    it is written. *)
Lemma Replicator_never_panics (cs : list call) : is_Some (run zero cs).
Proof.
  destruct (run_sound cs zero sound_zero) as (r & Hr & _). exists r. exact Hr.
Qed.

End ReplicatorSound.

(** ** The store: reading back what was appended *)

Section StoreReadFacts.
Import Store.

Lemma int64_small (x : Z) : - 2 ^ 63 <= x < 2 ^ 63 -> int64 x = x.
Proof. intros Hx. unfold int64. rewrite Z.mod_small; lia. Qed.

(** The buffered writer takes every byte and keeps the order, whether
    the bytes stay in the buffer or reach the file. *)
Lemma buf_write_contents (b : bufFile) (p : list byte) :
  exists b', buf_write b p = (b', (len p, None)) /\ contents b' = contents b ++ p.
Proof.
  unfold buf_write, contents.
  destruct (len p <=? bufSize - len (bf_pending b)).
  { eexists. split; [reflexivity|]. cbn. now rewrite app_assoc. }
  destruct (Z.eqb_spec (len (bf_pending b)) 0) as [Hz|_].
  { eexists. split; [reflexivity|]. cbn.
    assert (bf_pending b = []) as -> by (apply length_zero_iff_nil; unfold len in Hz; lia).
    now rewrite !app_nil_r. }
  destruct (len (drop _ p) <=? bufSize); eexists; (split; [reflexivity|]); cbn;
    rewrite ?app_nil_r, <- ?app_assoc, take_drop; reflexivity.
Qed.

(** [Append] on the buffered file, within 64 bits: it cannot fail, and it
    adds one frame, the 8-byte big-endian length and then the payload, to
    what was written before. *)
Lemma Append_frame (s : store bufFile) (p : list byte) :
  0 <= size s -> size s + lenWidth + len p < 2 ^ 64 ->
  exists b',
    Append s p = (mkStore b' (size s + (lenWidth + len p)), (lenWidth + len p, size s, None)) /\
    contents b' = contents (buf s) ++ PutUint64 (len p) ++ p.
Proof.
  intros H0 Hfit. pose proof (len_nonneg p) as Hp. unfold lenWidth in *.
  unfold Append, binary_Write. cbn [write bufFile_Writer].
  rewrite (uint64_small (len p)) by lia.
  destruct (buf_write_contents (buf s) (PutUint64 (len p))) as (b1 & Hw1 & Hc1).
  rewrite Hw1.
  destruct (buf_write_contents b1 p) as (b2 & Hw2 & Hc2).
  rewrite Hw2. exists b2. split.
  - rewrite uint64_int. unfold lenWidth.
    rewrite !(uint64_small (len p + 8)) by lia.
    rewrite uint64_small by lia.
    f_equal; [f_equal; lia|]. f_equal. f_equal. lia.
  - rewrite Hc2, Hc1. now rewrite <- app_assoc.
Qed.


Lemma file_ReadAt_middle (pre e post : list byte) :
  len pre <= max_int ->
  file_ReadAt (pre ++ e ++ post) (len e) (len pre) = (e, None).
Proof.
  intros Hpre. pose proof (len_nonneg pre) as H0. unfold file_ReadAt.
  destruct (Z.ltb_spec (len pre) 0) as [|_]; [lia|].
  unfold len. rewrite !Nat2Z.id. rewrite drop_app_length, take_app_length.
  destruct (Z.ltb_spec (Z.of_nat (length e)) (Z.of_nat (length e))) as [|_]; [lia|].
  reflexivity.
Qed.


Lemma Uint64_PutUint64 (v : Z) : 0 <= v < 2 ^ 64 -> Uint64 (PutUint64 v) = v.
Proof.
  intros Hv. unfold Uint64, PutUint64. rewrite be_decode_encode.
  change (2 ^ (8 * Z.of_nat 8)) with (2 ^ 64). now apply Z.mod_small.
Qed.

(** [Read] at the position where a frame starts returns the payload of
    the frame, whatever was still buffered, and leaves everything flushed. *)
Lemma Read_frame (s : store bufFile) (pre p post : list byte) :
  contents (buf s) = pre ++ PutUint64 (len p) ++ p ++ post ->
  len pre + lenWidth + len p <= max_int -> len p <= maxAlloc ->
  Read s (len pre) = Some (mkStore (mkBufFile (contents (buf s)) []) (size s), (p, None)).
Proof.
  intros Hc Hfit Halloc. pose proof (len_nonneg pre) as H0. pose proof (len_nonneg p) as Hp.
  unfold lenWidth, max_int, maxAlloc in *.
  unfold Read, Flush. cbn [bf_file]. fold (contents (buf s)). rewrite Hc.
  assert (Hh : len (PutUint64 (len p)) = 8)
    by (unfold len, PutUint64; now rewrite be_encode_length).
  rewrite int64_small by lia. unfold lenWidth. rewrite <- Hh at 1.
  rewrite file_ReadAt_middle by (unfold max_int; lia).
  rewrite Uint64_PutUint64 by lia.
  destruct (Z.ltb_spec maxAlloc (len p)) as [Hbig|_]; [unfold maxAlloc in Hbig; lia|].
  rewrite uint64_small by lia. rewrite int64_small by lia.
  replace (len pre + 8) with (len (pre ++ PutUint64 (len p))) by (rewrite len_app; lia).
  rewrite (app_assoc pre).
  rewrite file_ReadAt_middle by (rewrite len_app; unfold max_int; lia).
  reflexivity.
Qed.


End StoreReadFacts.

Section StoreRunFacts.
Import Store.

Lemma len_frame (p : list byte) : len (frame p) = framed p.
Proof.
  unfold frame, framed, lenWidth. rewrite len_app. unfold len at 1, PutUint64.
  rewrite be_encode_length. lia.
Qed.

Lemma len_frames (ps : list (list byte)) : len (frames ps) = frames_total ps.
Proof.
  induction ps as [|p ps IH]; [reflexivity|].
  unfold frames in *. cbn [fmap list_fmap concat frames_total foldr].
  rewrite len_app, len_frame. fold (frames_total ps). rewrite <- IH. reflexivity.
Qed.

(** A run of [Append] calls on the buffered file adds the frames of the
    payloads in order, every call succeeds, and the size field keeps
    counting the bytes written. *)
Lemma AppendAll_contents (ps : list (list byte)) : forall s : store bufFile,
  consistent s -> size s + frames_total ps <= max_int ->
  contents (buf (AppendAll s ps).1) = contents (buf s) ++ frames ps /\
  consistent (AppendAll s ps).1.
Proof.
  induction ps as [|p ps IH]; intros s Hs Hfit.
  - cbn. unfold frames. cbn. rewrite app_nil_r. split; [reflexivity|exact Hs].
  - pose proof (frames_total_nonneg ps) as Hps. pose proof (len_nonneg p) as Hp.
    destruct Hs as [Hsz Hmax]. pose proof (len_nonneg (contents (buf s))) as H0.
    cbn [frames_total foldr] in Hfit. fold (frames_total ps) in Hfit.
    unfold framed, lenWidth, max_int in *.
    destruct (Append_frame s p) as (b' & Happ & Hc); [lia|unfold lenWidth; lia|].
    cbn [AppendAll]. rewrite Happ.
    assert (Hs1 : consistent (mkStore b' (size s + (lenWidth + len p)))).
    { split; cbn [buf size]; rewrite Hc, len_app; fold (frame p);
        rewrite len_frame; unfold framed, lenWidth, max_int; lia. }
    specialize (IH (mkStore b' (size s + (lenWidth + len p))) Hs1).
    destruct (AppendAll (mkStore b' _) ps) as [s2 out]. cbn [fst buf size] in *.
    destruct IH as [IHc IHs]; [unfold lenWidth, max_int; lia|].
    split; [|exact IHs].
    rewrite IHc, Hc. unfold frames. cbn [fmap list_fmap concat].
    unfold frame. rewrite <- !app_assoc. reflexivity.
Qed.

(** X2. Every payload of a run (a slice, so of no more than [maxAlloc]
    bytes) is read back, after the whole run, at the position its
    [Append] returned. *)
Theorem store_Read_after_AppendAll (ps : list (list byte)) : forall (s : store bufFile),
  consistent s -> size s + frames_total ps <= max_int ->
  forall (i : nat) (p : list byte), ps !! i = Some p -> len p <= maxAlloc ->
  exists pos s',
    (AppendAll s ps).2 !! i = Some (lenWidth + len p, pos, None) /\
    Read (AppendAll s ps).1 pos = Some (s', (p, None)).
Proof.
  induction ps as [|q ps IH]; intros s Hs Hfit i p Hi Halloc; [inversion Hi|].
  pose proof (frames_total_nonneg ps) as Hps. pose proof (len_nonneg q) as Hq.
  pose proof (AppendAll_contents (q :: ps) s Hs Hfit) as [Hall _].
  destruct Hs as [Hsz Hmax]. pose proof (len_nonneg (contents (buf s))) as H0.
  cbn [frames_total foldr] in Hfit. fold (frames_total ps) in Hfit.
  unfold framed, lenWidth, max_int in *.
  destruct (Append_frame s q) as (b' & Happ & Hc); [lia|unfold lenWidth; lia|].
  cbn [AppendAll] in *. rewrite Happ in *.
  assert (Hs1 : consistent (mkStore b' (size s + (lenWidth + len q)))).
  { split; cbn [buf size]; rewrite Hc, len_app; fold (frame q);
      rewrite len_frame; unfold framed, lenWidth, max_int; lia. }
  specialize (IH (mkStore b' (size s + (lenWidth + len q))) Hs1).
  destruct (AppendAll (mkStore b' _) ps) as [s2 out] eqn:Hrun. cbn [fst snd] in *.
  destruct i as [|j].
  - injection Hi as <-. exists (size s). eexists. split; [reflexivity|].
    rewrite Hsz. apply (Read_frame s2 (contents (buf s)) q (frames ps)).
    + rewrite Hall. unfold frames. cbn [fmap list_fmap concat]. unfold frame.
      rewrite <- !app_assoc. reflexivity.
    + unfold lenWidth, max_int. lia.
    + exact Halloc.
  - cbn in Hi. destruct (IH ltac:(cbn [size]; unfold lenWidth, max_int; lia) j p Hi Halloc)
      as (pos & s' & Hres & Hread).
    exists pos, s'. split; [exact Hres|exact Hread].
Qed.






End StoreRunFacts.

(** ** The in-memory log: reads after a run of appends *)

Section ServerLogReadFacts.
Import ServerLog.

(** The records of the log after a run of appends: the old ones, then
    the new values under consecutive offsets. *)
Lemma AppendAll_records (rs : list Record_) : forall l : Log,
  len (records l) + len rs <= 2 ^ 64 ->
  records (AppendAll l rs).1
  = records l ++ imap (fun i r => mkRecord (Value r) (len (records l) + Z.of_nat i)) rs.
Proof.
  induction rs as [|r rs IH]; intros l Hlen.
  - cbn. now rewrite app_nil_r.
  - pose proof (len_nonneg (records l)) as H0. pose proof (len_nonneg rs) as H1.
    change (len (r :: rs)) with (Z.of_nat (S (length rs))) in Hlen.
    unfold len in H1.
    cbn [AppendAll]. unfold Append at 1.
    specialize (IH (mkLog (records l ++ [mkRecord (Value r) (uint64 (len (records l)))]))).
    destruct (AppendAll _ rs) as [l2 out]. cbn [fst records] in *.
    rewrite IH by (rewrite len_app; change (len [_]) with 1; unfold len in *; lia).
    rewrite <- app_assoc. f_equal. cbn [imap app]. f_equal.
    + rewrite uint64_small by (unfold len in *; lia). f_equal. lia.
    + apply imap_ext. intros i x _. cbn. rewrite len_app. change (len [_]) with 1.
      f_equal. lia.
Qed.

(** X6. After the records [rs] were appended to a fresh log, [Read] at
    offset [i] returns the value of the i-th of them under offset [i]. *)
Theorem Log_Read_after_AppendAll (rs : list Record_) (i : nat) (r : Record_) :
  len rs < 2 ^ 64 -> rs !! i = Some r ->
  Read (AppendAll NewLog rs).1 (Z.of_nat i) = Some (mkRecord (Value r) (Z.of_nat i), None).
Proof.
  intros Hlen Hi. pose proof (lookup_lt_Some _ _ _ Hi) as Hlt.
  unfold Read. rewrite AppendAll_records by (cbn; unfold len in *; cbn; lia).
  cbn [NewLog records app]. change (len []) with 0.
  assert (Hl : len (imap (fun i r => mkRecord (Value r) (0 + Z.of_nat i)) rs) = len rs)
    by (unfold len; now rewrite length_imap).
  rewrite Hl. unfold len in *. rewrite uint64_small by lia.
  destruct (Z.leb_spec (Z.of_nat (length rs)) (Z.of_nat i)) as [|_]; [lia|].
  unfold index_at, len. rewrite length_imap.
  destruct (Z.leb_spec 0 (Z.of_nat i)) as [_|]; [|lia].
  destruct (Z.ltb_spec (Z.of_nat i) (Z.of_nat (length rs))) as [_|]; [|lia].
  cbn [andb]. rewrite Nat2Z.id, list_lookup_imap, Hi. cbn. reflexivity.
Qed.

(** X7. [Read] succeeds exactly at the offsets below the number of records;
    at any other offset it returns [ErrOffsetNotFound] and the zero record. *)
Theorem Log_Read_bounds (l : Log) (offset : Z) :
  len (records l) < 2 ^ 64 -> 0 <= offset ->
  (offset < len (records l) ->
   exists r, records l !! Z.to_nat offset = Some r /\ Read l offset = Some (r, None)) /\
  (len (records l) <= offset ->
   Read l offset = Some (mkRecord [] 0, Some ErrOffsetNotFound)).
Proof.
  intros Hlen H0. pose proof (len_nonneg (records l)) as Hl.
  unfold Read. rewrite uint64_small by lia. split.
  - intros Hlt. destruct (Z.leb_spec (len (records l)) offset) as [|_]; [lia|].
    unfold index_at.
    destruct (Z.leb_spec 0 offset) as [_|]; [|lia].
    destruct (Z.ltb_spec offset (len (records l))) as [_|]; [|lia].
    cbn [andb].
    destruct (lookup_lt_is_Some_2 (records l) (Z.to_nat offset)) as [r Hr];
      [unfold len in Hlt; lia|].
    exists r. rewrite Hr. split; reflexivity.
  - intros Hge. destruct (Z.leb_spec (len (records l)) offset) as [_|]; [reflexivity|lia].
Qed.

End ServerLogReadFacts.

(** ** The index as a dense table *)

Section IndexTableFacts.
Import Index.

Lemma whole_size (i : index) : whole i -> size i = 12 * (size i / 12) /\ 0 <= size i / 12.
Proof.
  intros (H0 & Hmod & _). rewrite entWidth_12 in Hmod.
  pose proof (Z.div_mod (size i) 12 ltac:(lia)).
  pose proof (Z.div_pos (size i) 12 H0 ltac:(lia)). lia.
Qed.

(** A slice below [n] is a slice of the first [n] bytes. *)
Lemma slice_take {A} (m : list A) (n lo hi : Z) :
  0 <= lo -> lo <= hi -> hi <= n -> n <= len m ->
  slice m lo hi = slice (take (Z.to_nat n) m) lo hi.
Proof.
  intros H0 H1 H2 H3.
  rewrite !slice_ok by (try (unfold len; rewrite length_take); unfold len in *; lia).
  f_equal. rewrite <- (take_drop (Z.to_nat n) m) at 1.
  rewrite drop_app_le by (rewrite length_take; unfold len in *; lia).
  rewrite take_app_le by (rewrite length_drop, length_take; unfold len in *; lia).
  reflexivity.
Qed.

(** [Read] looks at [size] and at the bytes below it only. *)
Lemma Read_prefix (i i' : index) (in_ : Z) :
  whole i -> size i' = size i ->
  size i <= len (mmap i) -> size i <= len (mmap i') ->
  take (Z.to_nat (size i)) (mmap i') = take (Z.to_nat (size i)) (mmap i) ->
  -1 <= in_ < 2 ^ 31 ->
  Read i' in_ = Read i in_.
Proof.
  intros Hwhole Hsize Hfit Hfit' Htake Hin.
  assert (Hwhole' : whole i') by (unfold whole in *; rewrite Hsize; exact Hwhole).
  destruct (whole_size i Hwhole) as [Hsz Hq].
  destruct Hwhole as (H0 & Hmod & Hcnt). rewrite entWidth_12 in *.
  rewrite !Read_in_range by (assumption || (unfold whole; rewrite entWidth_12; lia)).
  unfold Read_spec. rewrite Hsize, entWidth_12. unfold offWidth.
  destruct (Z.eqb_spec (size i) 0) as [|Hne]; [reflexivity|].
  set (rel := if in_ =? -1 then size i / 12 - 1 else in_).
  assert (Hrel : 0 <= rel) by (subst rel; destruct (Z.eqb_spec in_ (-1)); lia).
  destruct (Z.ltb_spec (size i) (rel * 12 + 12)) as [|Hin']; [reflexivity|].
  rewrite (slice_take (mmap i') (size i) (rel * 12) (rel * 12 + 4)) by lia.
  rewrite (slice_take (mmap i') (size i) (rel * 12 + 4) (rel * 12 + 12)) by lia.
  rewrite (slice_take (mmap i) (size i) (rel * 12) (rel * 12 + 4)) by lia.
  rewrite (slice_take (mmap i) (size i) (rel * 12 + 4) (rel * 12 + 12)) by lia.
  rewrite Htake. reflexivity.
Qed.

(** [Read] of [-1] is [Read] of the last entry's number. *)
Lemma Read_last (i : index) :
  whole i -> 0 < size i -> Read i (-1) = Read i (size i / entWidth - 1).
Proof.
  intros Hwhole Hpos. destruct (whole_size i Hwhole) as [Hsz Hq].
  pose proof Hwhole as (H0 & Hmod & Hcnt). rewrite entWidth_12 in *.
  rewrite !Read_in_range by (assumption || lia).
  unfold Read_spec. rewrite entWidth_12.
  destruct (Z.eqb_spec (size i) 0) as [|_]; [reflexivity|].
  change (-1 =? -1) with true.
  destruct (Z.eqb_spec (size i / 12 - 1) (-1)) as [|_]; [lia|]. reflexivity.
Qed.

(** A [Write] that fits the mapping returns no error and keeps the
    length of the mapping. *)
Lemma Write_fits (i : index) (off pos : Z) :
  0 <= size i -> size i + entWidth <= len (mmap i) -> len (mmap i) < 2 ^ 64 ->
  exists i', Write i off pos = Some (i', None) /\ len (mmap i') = len (mmap i).
Proof.
  intros H0 Hfit Hlen. rewrite entWidth_12 in *.
  rewrite Write_cases by (rewrite ?entWidth_12; lia). rewrite entWidth_12.
  destruct (Z.ltb_spec (len (mmap i)) (size i + 12)) as [|_]; [lia|].
  eexists. split; [reflexivity|]. cbn [mmap].
  rewrite !len_app. unfold len in *. rewrite length_take, length_drop.
  unfold PutUint32, PutUint64. rewrite !be_encode_length. lia.
Qed.

(** X8. The index is a dense table. On an index whose size counts whole
    entries, whose mapping (shorter than [2^64] bytes) has room for the
    new entries and which holds no more than [2^31] entries with them:
    the entries written in turn all go in without error, each one is read
    back under its number, and the entries that were there before read
    as they did. *)
Theorem index_WriteAll_Read (es : list (Z * Z)) : forall i : index,
  whole i -> len (mmap i) < 2 ^ 64 ->
  size i + entWidth * len es <= len (mmap i) ->
  size i / entWidth + len es <= 2 ^ 31 ->
  exists i',
    WriteAll i es = Some (i', None) /\
    size i' = size i + entWidth * len es /\ whole i' /\
    len (mmap i') = len (mmap i) /\
    (forall k, 0 <= k < size i / entWidth -> Read i' k = Read i k) /\
    (forall (k : nat) off pos, es !! k = Some (off, pos) ->
       Read i' (size i / entWidth + Z.of_nat k) = Some (int32 off, uint64 pos, None)).
Proof.
  induction es as [|[off pos] es IH]; intros i Hwhole Hlen Hfit Hcnt.
  - exists i. change (len []) with 0 in *. cbn [WriteAll].
    split; [reflexivity|]. split; [lia|]. split; [exact Hwhole|].
    split; [reflexivity|]. split; [reflexivity|]. intros k off pos Hk. inversion Hk.
  - pose proof (len_nonneg es) as Hes.
    change (len ((off, pos) :: es)) with (Z.of_nat (S (length es))) in *.
    unfold len in Hes. rewrite entWidth_12 in *.
    destruct (whole_size i Hwhole) as [Hsz Hq].
    pose proof Hwhole as (H0 & Hmod & Hc0).
    destruct (Write_fits i off pos) as (i1 & Hw & Hlen1);
      [lia|rewrite ?entWidth_12; lia|lia|].
    destruct (Read_after_Write i i1 off pos Hwhole) as (Hwhole1 & Hsize1 & Hread1);
      [rewrite ?entWidth_12; lia|lia|exact Hw|].
    rewrite ?entWidth_12 in Hsize1.
    assert (Hq1 : size i1 / 12 = size i / 12 + 1).
    { rewrite Hsize1. replace (size i + 12) with (size i + 1 * 12) by lia.
      rewrite Z_div_plus_full by lia. reflexivity. }
    destruct (IH i1 Hwhole1) as (i' & Hall & Hsize' & Hwhole' & Hlen' & Hold & Hnew);
      [lia|unfold len in *; rewrite ?entWidth_12; lia
       |unfold len in *; rewrite ?entWidth_12; lia|].
    rewrite entWidth_12 in *.
    exists i'. cbn [WriteAll]. rewrite Hw.
    split; [exact Hall|]. split; [unfold len in *; lia|]. split; [exact Hwhole'|].
    split; [lia|]. split.
    + intros k Hk. rewrite Hold by lia.
      apply (Read_earlier_after_Write i i1 off pos k Hwhole);
        [rewrite ?entWidth_12; lia|lia|exact Hw|rewrite ?entWidth_12; lia].
    + intros k off' pos' Hk. destruct k as [|j].
      * injection Hk as <- <-. rewrite Z.add_0_r.
        rewrite Hold by lia.
        rewrite <- Hread1. rewrite Read_last by (assumption || lia).
        rewrite ?entWidth_12, Hq1. f_equal. lia.
      * cbn in Hk. specialize (Hnew j off' pos' Hk).
        rewrite Hq1 in Hnew. rewrite <- Hnew. f_equal. lia.
Qed.

(** X9. The edge of the table. On an index whose size counts whole
    entries, at least one, and does not exceed the mapping, for a number
    from 0 to [2^31 - 1]: [Read] of a number below the count of entries
    returns an entry and no error, and [Read] of any number from the
    count on returns end-of-data. *)
Theorem index_Read_bounds (i : index) (in_ : Z) :
  whole i -> 0 < size i -> size i <= len (mmap i) -> 0 <= in_ < 2 ^ 31 ->
  (in_ < size i / entWidth -> exists off pos, Read i in_ = Some (off, pos, None)) /\
  (size i / entWidth <= in_ -> Read i in_ = Some (0, 0, Some EOF)).
Proof.
  intros Hwhole Hpos Hfit Hin. destruct (whole_size i Hwhole) as [Hsz Hq].
  rewrite Read_in_range by (assumption || lia).
  unfold Read_spec. rewrite entWidth_12. unfold offWidth.
  destruct (Z.eqb_spec (size i) 0) as [|_]; [lia|].
  destruct (Z.eqb_spec in_ (-1)) as [|_]; [lia|]. cbv zeta.
  split.
  - intros Hlt. destruct (Z.ltb_spec (size i) (in_ * 12 + 12)) as [|_]; [lia|].
    rewrite !slice_ok by lia. cbn [mbind option_bind]. eexists. eexists. reflexivity.
  - intros Hge. destruct (Z.ltb_spec (size i) (in_ * 12 + 12)) as [_|]; [reflexivity|lia].
Qed.

(** X10. Closing and reopening. [Close] leaves a file of exactly [size]
    bytes, and [newIndex] on that file, with the same maximum, gives an
    index of the same size that reads as the closed one did. (A mapping
    has at least one byte: none can be made of an empty file.) *)
Theorem index_Close_reopen (i : index) (in_ : Z) :
  whole i -> size i <= len (mmap i) -> 0 < len (mmap i) <= max_int ->
  -1 <= in_ < 2 ^ 31 ->
  exists f,
    Close i = (f, None) /\ len f = size i /\
    size (newIndex f (len (mmap i))) = size i /\
    len (mmap (newIndex f (len (mmap i)))) = len (mmap i) /\
    Read (newIndex f (len (mmap i))) in_ = Read i in_.
Proof.
  intros Hwhole Hfit [_ Hmax] Hin. pose proof Hwhole as (H0 & _).
  unfold max_int in Hmax. unfold Close.
  rewrite int64_small by lia.
  destruct (Z.ltb_spec (size i) 0) as [|_]; [lia|].
  replace (Z.to_nat (size i) - length (mmap i))%nat with 0%nat by (unfold len in *; lia).
  cbn [replicate]. rewrite app_nil_r.
  set (f := take (Z.to_nat (size i)) (mmap i)).
  assert (Hf : len f = size i) by (subst f; unfold len in *; rewrite length_take; lia).
  exists f. split; [reflexivity|]. split; [exact Hf|].
  assert (Hsize : size (newIndex f (len (mmap i))) = size i).
  { unfold newIndex. cbn [size]. rewrite Hf. apply uint64_small. lia. }
  assert (Hmm : mmap (newIndex f (len (mmap i)))
                = f ++ replicate (length (mmap i) - length f) 0).
  { unfold newIndex. cbn [mmap]. unfold len at 1 2. rewrite Nat2Z.id.
    rewrite take_ge by (unfold len in *; lia). reflexivity. }
  split; [exact Hsize|]. split.
  - rewrite Hmm, len_app. unfold len in *. rewrite length_replicate. lia.
  - apply Read_prefix; try assumption.
    + rewrite Hmm, len_app. unfold len in *. rewrite length_replicate. lia.
    + rewrite Hmm. rewrite take_app_length' by (unfold len in Hf; lia).
      reflexivity.
Qed.

End IndexTableFacts.

(** ** The distributed log: membership and the write path *)

Section DistributedLogMembershipFacts.
Import Raft DistributedLog.
Variables id addr : string.







(** [Leave] on a node that raft refuses membership changes fails and
    changes nothing. *)
Lemma Leave_not_leader {LogT} (l : DistributedLog LogT) (err : error) :
  leaderCheck (raft l) = Some err -> Leave l id = (l, Some err).
Proof.
  intros Hl. unfold Leave, RemoveServer.
  rewrite (requestConfigChange_refused _ _ err Hl). destruct l. reflexivity.
Qed.

End DistributedLogMembershipFacts.

Section DistributedLogServersFacts.
Import Raft DistributedLog.

(** X14. The cluster list. [GetServers] answers with one entry per server
    of the configuration, in order, under its id and address; an entry is
    flagged as leader exactly when its address is the leader's, and in a
    valid configuration at most one entry is. *)
Theorem GetServers_one_leader {LogT} (l : DistributedLog LogT) (leader : string) :
  valid (Servers (raft l)) ->
  exists srvs,
    GetServers l leader = (srvs, None) /\
    Id <$> srvs = ID <$> Servers (raft l) /\
    RpcAddr <$> srvs = Address <$> Servers (raft l) /\
    (forall a, a ∈ srvs -> (IsLeader a = true <-> RpcAddr a = leader)) /\
    (forall a b, a ∈ srvs -> b ∈ srvs -> IsLeader a = true -> IsLeader b = true -> a = b).
Proof.
  intros [HndID HndAddr]. unfold GetServers, GetConfiguration.
  eexists. split; [reflexivity|].
  split; [rewrite <- list_fmap_compose; reflexivity|].
  split; [rewrite <- list_fmap_compose; reflexivity|].
  assert (Hflag : forall a,
    a ∈ (fun srv => mkApiServer (ID srv) (Address srv) (bool_decide (leader = Address srv)))
          <$> Servers (raft l) ->
    exists s, s ∈ Servers (raft l) /\ a = mkApiServer (ID s) (Address s)
                                          (bool_decide (leader = Address s))).
  { intros a Ha. apply list_elem_of_fmap in Ha. destruct Ha as (s & -> & Hs).
    exists s. now split. }
  split.
  - intros a Ha. destruct (Hflag a Ha) as (s & _ & ->). cbn.
    rewrite bool_decide_eq_true. split; congruence.
  - intros a b Ha Hb Hla Hlb.
    destruct (Hflag a Ha) as (s & Hs & ->). destruct (Hflag b Hb) as (t & Ht & ->).
    cbn in Hla, Hlb. apply bool_decide_eq_true in Hla. apply bool_decide_eq_true in Hlb.
    rewrite (valid_Address_inj _ s t HndAddr Hs Ht) by congruence. reflexivity.
Qed.

End DistributedLogServersFacts.

Section DistributedLogWriteFacts.
Import Raft DistributedLog.
Context {LogT RecordT : Type}.
Variable log_Append : LogT -> RecordT -> LogT * (Z * option error).
Variable Marshal : RecordT -> list byte + error.
Variable Unmarshal : list byte -> RecordT + error.
Variable aliased : bool.


(** X16. A node that is not the leader never touches its log: whatever the
    record and the codec, [Append] leaves the distributed log as it was. *)
Theorem Append_off_leader_keeps_log (l : DistributedLog LogT) (record : RecordT) :
  State (raft l) <> Leader ->
  exists res, Append log_Append Marshal Unmarshal aliased l record = Some (l, res).
Proof.
  intros Hnl. unfold Append, apply, raft_Apply, leaderCheck.
  destruct (Marshal record) as [b|err]; [|eexists; reflexivity].
  destruct (State (raft l)); try (eexists; reflexivity). contradiction.
Qed.

End DistributedLogWriteFacts.

(** ** ConsumeStream: delivery in order *)

Section ConsumeStreamDelivery.
Import GrpcServer.
Context `{CommitLog L}.

(** X17. Delivery. Through passes in which the context is not done, the
    send is accepted and the read at the stream's offset finds a record,
    the handler sends the records found at the consecutive offsets
    [k], [k+1], ... in that order, once each, ends at the offset after
    the last of them and is still looping. *)
Theorem ConsumeStream_delivers (trs : list (Tick L * Record_)) :
  forall (k : Z) (s0 : list Record_),
  0 <= k -> k + len trs < 2 ^ 64 ->
  (forall (j : nat) t r, trs !! j = Some (t, r) ->
     done t = false /\ sendErr t = None /\
     Read (commitLog t) (k + Z.of_nat j) = inl r) ->
  ConsumeStream (fst <$> trs) (mkStream k s0)
  = (mkStream (k + len trs) (s0 ++ (snd <$> trs)), Looping).
Proof.
  induction trs as [|[t r] trs IH]; intros k s0 H0 Hfit Hall.
  - cbn. change (len []) with 0. rewrite Z.add_0_r, app_nil_r. reflexivity.
  - pose proof (len_nonneg trs) as Hl.
    change (len ((t, r) :: trs)) with (Z.of_nat (S (length trs))) in *.
    unfold len in Hl.
    destruct (Hall 0%nat t r eq_refl) as (Hd & Hs & Hr). rewrite Z.add_0_r in Hr.
    cbn [fmap list_fmap ConsumeStream fst snd].
    rewrite (pass_record t (mkStream k s0) r Hd Hr Hs). cbn [reqOffset sent].
    rewrite uint64_small by lia.
    rewrite (IH (k + 1) (s0 ++ [r])); [|lia|unfold len; lia|].
    + f_equal. f_equal; [unfold len; lia|]. now rewrite <- app_assoc.
    + intros j t' r' Hj. replace (k + 1 + Z.of_nat j) with (k + Z.of_nat (S j)) by lia.
      apply (Hall (S j)). exact Hj.
Qed.

End ConsumeStreamDelivery.

(** ** The replicator: leaving, joining again, closing *)

Section ReplicatorLifeFacts.
Import Replicator.

(** X18. A peer that left can join again. On a replicator in order that
    has not been closed, for a peer it has a task for, [Leave] returns
    nil, closes the peer's channel, drops its task and starts nothing; a
    later [Join] of the name returns nil and starts one goroutine on a
    new, open channel, with the tasks of the other peers as they were. *)
Theorem Leave_then_Join (r : Replicator) (name addrs : string) (c : chan) :
  sound r -> closed r = false -> tasks r !! name = Some c ->
  exists r1 r2 c',
    Leave r name = Some (r1, None) /\
    tasks r1 !! name = None /\ c ∈ closed_chans r1 /\ goroutines r1 = goroutines r /\
    Join r1 name addrs = (r2, None) /\
    tasks r2 !! name = Some c' /\ c' <> c /\ (c' ∉ closed_chans r2) /\
    goroutines r2 = goroutines r ++ [(addrs, c')] /\
    (forall n, n <> name -> tasks r2 !! n = tasks r !! n).
Proof.
  intros Hs Hopen Hn.
  pose proof (init_sound r Hs) as Hs0.
  destruct (init_filled r) as (Hlg & Hsv & Hcl).
  pose proof (init_tasks r) as Ht. pose proof (init_closed r) as Hc.
  pose proof (init_goroutines r) as Hg.
  unfold Leave. set (r0 := init r) in *. clearbody r0.
  rewrite Ht, Hn.
  destruct Hs0 as (I1 & I2 & I3 & I4 & I5).
  rewrite Ht in I3, I4.
  destruct (I3 name c Hn) as (Hlt & Hx & Hnc).
  unfold close_chan. destruct (decide (c ∈ closed_chans r0)) as [|_]; [contradiction|].
  cbn [mbind option_bind logger servers closed close next_chan closed_chans goroutines].
  change (tasks (mkReplicator _ (servers r0) _ _ _ _ _)) with (tasks r0). rewrite Ht.
  set (r1 := mkReplicator (logger r0) (Some (delete name (tasks r))) (closed r0) (close r0)
               (next_chan r0) ({[c]} ∪ closed_chans r0) (goroutines r0)).
  assert (Hi1 : init r1 = r1).
  { apply init_fixed; subst r1; cbn [logger servers close]; [exact Hlg|eexists; reflexivity|exact Hcl]. }
  assert (Ht1 : tasks r1 = delete name (tasks r)) by reflexivity.
  exists r1. eexists. exists (next_chan r0).
  split; [reflexivity|].
  split; [rewrite Ht1; apply lookup_delete_eq|].
  split; [subst r1; cbn [closed_chans]; apply elem_of_union; left;
          now apply elem_of_singleton|].
  split; [subst r1; cbn [goroutines]; exact Hg|].
  unfold Join. rewrite Hi1.
  assert (Hc1 : closed r1 = false) by (subst r1; cbn [closed]; congruence).
  rewrite Hc1, Ht1, lookup_delete_eq.
  split; [reflexivity|]. rewrite tasks_mk.
  split; [apply lookup_insert_eq|].
  split; [lia|]. split; [|split].
  - cbn [closed_chans]. subst r1. cbn [closed_chans next_chan].
    intros Hin. apply elem_of_union in Hin. destruct Hin as [Hin|Hin].
    + apply elem_of_singleton in Hin. lia.
    + apply I5 in Hin. lia.
  - cbn [goroutines]. subst r1. cbn [goroutines next_chan]. now rewrite Hg.
  - intros n Hne. rewrite lookup_insert_ne by congruence.
    now rewrite lookup_delete_ne by congruence.
Qed.

(** X19. What [Close] closes. On an open replicator in order, [Close]
    returns nil and closes the shared close channel and nothing else: the
    task map stays as it was, and the channel of every task stays open. *)
Theorem Close_keeps_tasks (r : Replicator) :
  sound r -> closed r = false ->
  exists r1 c,
    Close r = Some (r1, None) /\ closed r1 = true /\
    close r1 = Some c /\ closed_chans r1 = {[c]} ∪ closed_chans r /\
    tasks r1 = tasks r /\ goroutines r1 = goroutines r /\
    (forall n c', tasks r1 !! n = Some c' -> c' ∉ closed_chans r1).
Proof.
  intros Hs Hopen.
  pose proof (init_sound r Hs) as Hs0.
  destruct (init_filled r) as (_ & _ & [c Hcl]).
  destruct (init_view r) as (Ht & Hc & Hcc & _).
  pose proof (init_goroutines r) as Hg.
  unfold Close. set (r0 := init r) in *. clearbody r0.
  rewrite Hc, Hopen. cbn [close]. rewrite Hcl. cbn [mbind option_bind].
  destruct Hs0 as (I1 & I2 & I3 & I4 & I5).
  unfold close_chan. cbn [closed_chans logger servers closed close next_chan goroutines].
  destruct (decide (c ∈ closed_chans r0)) as [Hin|_];
    [exfalso; apply (I2 ltac:(congruence) c Hcl Hin)|].
  cbn [mbind option_bind]. eexists. exists c. split; [reflexivity|].
  cbn [closed close closed_chans goroutines].
  change (tasks (mkReplicator _ (servers r0) _ _ _ _ _)) with (tasks r0).
  split; [reflexivity|]. split; [reflexivity|]. split; [now rewrite Hcc|].
  split; [exact Ht|]. split; [exact Hg|].
  intros n c' Hn. destruct (I3 n c' Hn) as (_ & Hx & Hnc).
  intros Hin. apply elem_of_union in Hin. destruct Hin as [Hin|Hin]; [|contradiction].
  apply elem_of_singleton in Hin. subst c'. apply Hx. exact Hcl.
Qed.

End ReplicatorLifeFacts.

(** ** Membership events driving the replicator *)

Section MembershipFacts.
Import Membership.
#[local] Set Warnings "-clear-no-such-hyp".

Lemma Replicator_Join_dom (r : Replicator.Replicator) (name addrs : string) :
  Replicator.sound r -> Replicator.closed r = false ->
  Replicator.sound (Replicator.Join r name addrs).1 /\
  Replicator.closed (Replicator.Join r name addrs).1 = false /\
  dom (Replicator.tasks (Replicator.Join r name addrs).1)
  = dom (Replicator.tasks r) ∪ {[name]}.
Proof.
  intros Hs Hopen. split; [now apply Join_sound|].
  pose proof (init_tasks r) as Ht. pose proof (init_closed r) as Hc.
  unfold Replicator.Join. set (r0 := Replicator.init r) in *. clearbody r0.
  rewrite Hc, Hopen, Ht.
  destruct (Replicator.tasks r !! name) as [c|] eqn:Hn; cbn [fst].
  - split; [congruence|]. rewrite Ht.
    assert (name ∈ dom (Replicator.tasks r)) by (apply elem_of_dom; eauto).
    set_solver.
  - cbn [Replicator.closed]. split; [congruence|].
    rewrite tasks_mk, dom_insert_L. set_solver.
Qed.

Lemma Replicator_Leave_dom (r : Replicator.Replicator) (name : string) :
  Replicator.sound r -> Replicator.closed r = false ->
  exists r',
    Replicator.Leave r name = Some (r', None) /\
    Replicator.sound r' /\ Replicator.closed r' = false /\
    dom (Replicator.tasks r') = dom (Replicator.tasks r) ∖ {[name]}.
Proof.
  intros Hs Hopen.
  destruct (Leave_sound r name Hs) as (r' & Hl & Hs').
  exists r'. split; [exact Hl|]. split; [exact Hs'|].
  pose proof (init_tasks r) as Ht. pose proof (init_closed r) as Hc.
  revert Hl. unfold Replicator.Leave.
  set (r0 := Replicator.init r) in *. clearbody r0. rewrite Ht.
  destruct (Replicator.tasks r !! name) as [c|] eqn:Hn.
  - unfold Replicator.close_chan.
    destruct (decide (c ∈ Replicator.closed_chans r0)); [discriminate|].
    cbn [mbind option_bind Replicator.logger Replicator.servers Replicator.closed
         Replicator.close Replicator.next_chan Replicator.closed_chans
         Replicator.goroutines].
    change (Replicator.tasks (Replicator.mkReplicator _ (Replicator.servers r0) _ _ _ _ _))
      with (Replicator.tasks r0). rewrite Ht.
    intros [= <-]. cbn [Replicator.closed]. split; [congruence|].
    rewrite tasks_mk, dom_delete_L. reflexivity.
  - intros [= <-]. split; [congruence|]. rewrite Ht.
    assert (name ∉ dom (Replicator.tasks r)) by (apply not_elem_of_dom; exact Hn).
    set_solver.
Qed.

Lemma others_cons (local : string) (m : Member) (ms : list Member) :
  others local (m :: ms)
  = if isLocal local m then others local ms else {[Name m]} ∪ others local ms.
Proof.
  unfold others, isLocal. destruct (decide (Name m = local)) as [He|Hne].
  - rewrite bool_decide_eq_true_2 by exact He.
    rewrite filter_cons_False by (intros Hn; contradiction). reflexivity.
  - rewrite bool_decide_eq_false_2 by exact Hne.
    rewrite filter_cons_True by exact Hne. reflexivity.
Qed.

Lemma joinMembers_peers (local : string) (members : list Member) :
  forall r : Replicator.Replicator,
  Replicator.sound r -> Replicator.closed r = false ->
  exists r',
    joinMembers local r members = Some r' /\
    Replicator.sound r' /\ Replicator.closed r' = false /\
    dom (Replicator.tasks r') = dom (Replicator.tasks r) ∪ others local members.
Proof.
  induction members as [|m ms IH]; intros r Hs Hopen.
  - exists r. split; [reflexivity|]. split; [exact Hs|]. split; [exact Hopen|].
    unfold others. cbn. set_solver.
  - cbn [joinMembers]. rewrite others_cons. destruct (isLocal local m).
    + apply IH; assumption.
    + unfold handleJoin. cbn [Join Replicator_Handler mbind option_bind].
      destruct (Replicator_Join_dom r (Name m) (tag m "rpc_addrs") Hs Hopen)
        as (Hs1 & Hc1 & Hd1).
      destruct (Replicator.Join r (Name m) (tag m "rpc_addrs")) as [r1 e].
      cbn [fst] in *. cbn [mbind option_bind].
      destruct (IH r1 Hs1 Hc1) as (r' & Hr' & Hs' & Hc' & Hd').
      exists r'. split; [exact Hr'|]. split; [exact Hs'|]. split; [exact Hc'|].
      rewrite Hd', Hd1. set_solver.
Qed.

Lemma leaveMembers_peers (local : string) (members : list Member) :
  forall r : Replicator.Replicator,
  Replicator.sound r -> Replicator.closed r = false ->
  exists r',
    leaveMembers local r members = Some r' /\
    Replicator.sound r' /\ Replicator.closed r' = false /\
    dom (Replicator.tasks r') = dom (Replicator.tasks r) ∖ others local members.
Proof.
  induction members as [|m ms IH]; intros r Hs Hopen.
  - exists r. split; [reflexivity|]. split; [exact Hs|]. split; [exact Hopen|].
    unfold others. cbn. set_solver.
  - cbn [leaveMembers]. rewrite others_cons. destruct (isLocal local m).
    + apply IH; assumption.
    + unfold handleLeave. cbn [Leave Replicator_Handler].
      destruct (Replicator_Leave_dom r (Name m) Hs Hopen) as (r1 & -> & Hs1 & Hc1 & Hd1).
      cbn [mbind option_bind].
      destruct (IH r1 Hs1 Hc1) as (r' & Hr' & Hs' & Hc' & Hd').
      exists r'. split; [exact Hr'|]. split; [exact Hs'|]. split; [exact Hc'|].
      rewrite Hd', Hd1. set_solver.
Qed.

Lemma local_not_in_others (local : string) (members : list Member) :
  local ∉ others local members.
Proof.
  unfold others. intros Hin. apply elem_of_list_to_set in Hin.
  apply list_elem_of_fmap in Hin. destruct Hin as (m & Hm & Hf).
  apply list_elem_of_filter in Hf. destruct Hf as [Hne _]. congruence.
Qed.

(** X20. The replicator follows the membership. With the replicator as
    handler, open and in order, the event loop never panics, and after
    any events the peers it has a task for are exactly the ones before,
    with the other members that joined and without the other members
    that left or failed, event by event; the local member never becomes
    a peer. *)
Theorem eventHandler_tracks_peers (local : string) (events : list Event) :
  forall r : Replicator.Replicator,
  Replicator.sound r -> Replicator.closed r = false ->
  exists r',
    eventHandler local r events = Some r' /\
    Replicator.sound r' /\ Replicator.closed r' = false /\
    dom (Replicator.tasks r') = foldl (peers_after local) (dom (Replicator.tasks r)) events /\
    (local ∉ dom (Replicator.tasks r) -> local ∉ dom (Replicator.tasks r')).
Proof.
  induction events as [|e events IH]; intros r Hs Hopen.
  - exists r. split; [reflexivity|]. split; [exact Hs|]. split; [exact Hopen|].
    split; [reflexivity|]. auto.
  - cbn [eventHandler foldl].
    assert (Hstep : exists r1,
      match e with
      | EventMemberJoin members => joinMembers local r members
      | EventMemberLeave members | EventMemberFailed members =>
          leaveMembers local r members
      | EventOther => Some r
      end = Some r1 /\
      Replicator.sound r1 /\ Replicator.closed r1 = false /\
      dom (Replicator.tasks r1) = peers_after local (dom (Replicator.tasks r)) e).
    { destruct e as [ms|ms|ms|]; cbn [peers_after].
      - apply joinMembers_peers; assumption.
      - apply leaveMembers_peers; assumption.
      - apply leaveMembers_peers; assumption.
      - exists r. split; [reflexivity|]. split; [exact Hs|]. split; [exact Hopen|].
        reflexivity. }
    destruct Hstep as (r1 & -> & Hs1 & Hc1 & Hd1). cbn [mbind option_bind].
    destruct (IH r1 Hs1 Hc1) as (r' & Hr' & Hs' & Hc' & Hd' & Hloc').
    exists r'. split; [exact Hr'|]. split; [exact Hs'|]. split; [exact Hc'|].
    split; [rewrite Hd', Hd1; reflexivity|].
    intros Hloc. apply Hloc'. rewrite Hd1.
    pose proof (local_not_in_others local) as Hno.
    destruct e as [ms|ms|ms|]; cbn [peers_after]; specialize (Hno ltac:(first [exact ms|exact []]));
      set_solver.
Qed.

End MembershipFacts.

(** ** Restoring the state machine from a snapshot *)

Section RestoreFacts.
Import DistributedLog.
Context {LogT RecordT : Type}.
Variable log_Append : LogT -> RecordT -> LogT * (Z * option error).
Variable log_Reset : LogT -> Z -> LogT * option error.
Variable Unmarshal_record : list byte -> RecordT + error.
Variable record_Offset : RecordT -> Z.

Lemma frames_cons (b : list byte) (bs : list (list byte)) :
  Store.frames (b :: bs) = PutUint64 (len b) ++ b ++ Store.frames bs.
Proof.
  unfold Store.frames. cbn [fmap list_fmap concat]. unfold Store.frame at 1.
  now rewrite <- app_assoc.
Qed.

Lemma io_ReadFull_prefix (h rest : list byte) (n : Z) :
  len h = n -> 0 < n -> io_ReadFull (h ++ rest) n = (h, rest, None).
Proof.
  intros Hh Hn. unfold io_ReadFull. rewrite len_app.
  pose proof (len_nonneg rest) as Hr.
  destruct (Z.eqb_spec (len h + len rest) 0) as [|_]; [lia|].
  destruct (Z.ltb_spec (len h + len rest) n) as [|_]; [lia|].
  subst n. unfold len. rewrite Nat2Z.id, take_app_length, drop_app_length. reflexivity.
Qed.

Lemma io_CopyN_prefix (b rest : list byte) : io_CopyN (b ++ rest) (len b) = (b, rest, None).
Proof.
  unfold io_CopyN. rewrite len_app.
  pose proof (len_nonneg rest) as Hr. pose proof (len_nonneg b) as Hb.
  destruct (Z.ltb_spec (len b) 0) as [|_]; [lia|].
  destruct (Z.ltb_spec (len b + len rest) (len b)) as [|_]; [lia|].
  unfold len. rewrite Nat2Z.id, take_app_length, drop_app_length. reflexivity.
Qed.

Lemma Restore_loop_frames (bs : list (list byte)) :
  forall (records : list RecordT) (fuel : nat) (lg : LogT) (first : bool) (tail : list byte),
  Forall2 (fun b record => Unmarshal_record b = inl record) bs records ->
  Forall (fun b => len b <= max_int) bs ->
  len tail < Store.lenWidth -> (length bs < fuel)%nat ->
  Restore_loop log_Append log_Reset Unmarshal_record record_Offset
    fuel lg (Store.frames bs ++ tail) first
  = Some (stream_end tail
            (if first then replay log_Append log_Reset record_Offset lg records
             else appendEach log_Append lg records)).
Proof.
  induction bs as [|b bs IH]; intros records fuel lg first tail Hdec Hmax Htail Hfuel.
  - apply Forall2_nil_inv_l in Hdec. subst records.
    destruct fuel as [|fuel]; [lia|]. pose proof (len_nonneg tail) as Ht.
    cbn [Store.frames fmap list_fmap concat app Restore_loop]. unfold io_ReadFull.
    assert (Hres : (if first then replay log_Append log_Reset record_Offset lg []
                    else appendEach log_Append lg []) = (lg, None))
      by (destruct first; reflexivity).
    rewrite Hres. unfold stream_end.
    destruct (Z.eqb_spec (len tail) 0) as [|Hne]; [reflexivity|].
    destruct (Z.ltb_spec (len tail) Store.lenWidth) as [_|]; [|lia].
    reflexivity.
  - apply Forall2_cons_inv_l in Hdec. destruct Hdec as (record & rest & Hb & Hdec & ->).
    apply Forall_cons in Hmax. destruct Hmax as [Hbmax Hmax].
    destruct fuel as [|fuel]; [lia|]. cbn [length] in Hfuel.
    pose proof (len_nonneg b) as Hb0. unfold max_int, Store.lenWidth in *.
    assert (Hh : len (PutUint64 (len b)) = 8)
      by (unfold len, PutUint64; now rewrite be_encode_length).
    rewrite frames_cons, <- !app_assoc. cbn [Restore_loop].
    rewrite io_ReadFull_prefix by (unfold Store.lenWidth; lia).
    rewrite Uint64_PutUint64 by lia. rewrite int64_small by lia.
    rewrite io_CopyN_prefix.
    rewrite Hb.
    specialize (IH rest fuel).
    destruct first.
    + cbn [replay appendEach].
      destruct (log_Reset lg (record_Offset record)) as [lg1 [e|]]; [reflexivity|].
      destruct (log_Append lg1 record) as [lg2 [off [e|]]]; [reflexivity|].
      apply IH; assumption || lia.
    + cbn [appendEach].
      destruct (log_Append lg record) as [lg2 [off [e|]]]; [reflexivity|].
      apply IH; assumption || lia.
Qed.

(** X21. Replaying a snapshot. On a stream made of the frames of the
    payloads [bs], as the store writes them, where each payload decodes
    to a record, [Restore] resets the log to the offset of the first
    record and appends every record in order, up to the first error; an
    empty stream leaves the log alone. *)
Theorem Restore_replays_frames
  (bs : list (list byte)) (records : list RecordT) (lg : LogT) :
  Forall2 (fun b record => Unmarshal_record b = inl record) bs records ->
  Forall (fun b => len b <= max_int) bs ->
  Restore log_Append log_Reset Unmarshal_record record_Offset lg (Store.frames bs)
  = Some (replay log_Append log_Reset record_Offset lg records).
Proof.
  intros Hdec Hmax. unfold Restore.
  rewrite <- (app_nil_r (Store.frames bs)) at 2.
  rewrite (Restore_loop_frames bs records _ lg true []); try assumption.
  - unfold stream_end.
    destruct (replay _ _ _ lg records) as [lg' [e|]]; reflexivity.
  - unfold Store.lenWidth. change (len []) with 0. lia.
  - pose proof (len_frames bs) as Hl. unfold len in Hl.
    assert (Hcount : Z.of_nat (length bs) <= Store.frames_total bs).
    { clear. induction bs as [|b bs IH]; [cbn; lia|].
      cbn [Store.frames_total foldr length]. fold (Store.frames_total bs).
      unfold Store.framed, Store.lenWidth. pose proof (len_nonneg b). lia. }
    lia.
Qed.

(** X22. A torn snapshot. When the stream ends inside the length of a
    further frame, [Restore] still replays the whole frames before it and
    then fails with [io.ErrUnexpectedEOF]. *)
Theorem Restore_torn_tail
  (bs : list (list byte)) (records : list RecordT) (lg lg' : LogT) (tail : list byte) :
  Forall2 (fun b record => Unmarshal_record b = inl record) bs records ->
  Forall (fun b => len b <= max_int) bs ->
  0 < len tail < Store.lenWidth ->
  replay log_Append log_Reset record_Offset lg records = (lg', None) ->
  Restore log_Append log_Reset Unmarshal_record record_Offset lg (Store.frames bs ++ tail)
  = Some (lg', Some ErrUnexpectedEOF).
Proof.
  intros Hdec Hmax Htail Hok. unfold Restore.
  rewrite (Restore_loop_frames bs records _ lg true tail); try assumption; try lia.
  - rewrite Hok. unfold stream_end.
    destruct (Z.eqb_spec (len tail) 0) as [|_]; [lia|]. reflexivity.
  - rewrite length_app.
    pose proof (len_frames bs) as Hl. unfold len in Hl.
    assert (Hcount : Z.of_nat (length bs) <= Store.frames_total bs).
    { clear. induction bs as [|b bs IH]; [cbn; lia|].
      cbn [Store.frames_total foldr length]. fold (Store.frames_total bs).
      unfold Store.framed, Store.lenWidth. pose proof (len_nonneg b). lia. }
    lia.
Qed.

End RestoreFacts.

(** ** The index: capacity, and the newest entry *)

Section IndexCapacityFacts.
Import Index.

Lemma WriteAll_sizes (es : list (Z * Z)) : forall i : index,
  0 <= size i <= len (mmap i) -> len (mmap i) <= max_int ->
  exists i',
    len (mmap i') = len (mmap i) /\
    ((size i + 12 * len es <= len (mmap i) /\
      WriteAll i es = Some (i', None) /\ size i' = size i + 12 * len es) \/
     (len (mmap i) < size i + 12 * len es /\
      WriteAll i es = Some (i', Some EOF) /\
      size i <= size i' /\ (size i' - size i) mod 12 = 0 /\
      len (mmap i) - 12 < size i' <= len (mmap i))).
Proof.
  induction es as [|[off pos] es IH]; intros i Hsize Hlen; unfold max_int in Hlen.
  - exists i. split; [reflexivity|]. left. change (len []) with 0.
    split; [lia|]. split; [reflexivity|lia].
  - pose proof (len_nonneg es) as Hes.
    change (len ((off, pos) :: es)) with (Z.of_nat (S (length es))).
    unfold len in Hes. cbn [WriteAll].
    rewrite Write_cases by (rewrite ?entWidth_12; lia). rewrite entWidth_12.
    destruct (Z.ltb_spec (len (mmap i)) (size i + 12)) as [Hfull|Hfit].
    + exists i. split; [reflexivity|]. right.
      split; [lia|]. split; [reflexivity|]. split; [lia|].
      split; [now rewrite Z.sub_diag|lia].
    + set (i1 := mkIndex _ (size i + 12)).
      assert (Hlen1 : len (mmap i1) = len (mmap i)).
      { subst i1. cbn [mmap]. rewrite !len_app. unfold len in *.
        rewrite length_take, length_drop. unfold PutUint32, PutUint64.
        rewrite !be_encode_length. lia. }
      destruct (IH i1) as (i' & Hl' & Hcase);
        [subst i1; cbn [size]; rewrite Hlen1; lia|unfold max_int; lia|].
      exists i'. split; [lia|].
      change (size i1) with (size i + 12) in Hcase. rewrite Hlen1 in Hcase.
      destruct Hcase as [(Hroom & Hall & Hs')|(Hroom & Hall & Hge & Hmod & Hlast)].
      * left. split; [unfold len in *; lia|]. split; [exact Hall|unfold len in *; lia].
      * right. split; [unfold len in *; lia|]. split; [exact Hall|]. split; [lia|].
        split; [|lia].
        replace (size i' - size i) with (size i' - (size i + 12) + 1 * 12) by lia.
        rewrite Z_mod_plus_full. exact Hmod.
Qed.

(** X24. Capacity. A fresh index of [max] bytes takes the entries written
    to it without error as long as they fit, [12 * n <= max]; a run with
    more entries ends in end-of-data, with the index holding the
    [max / 12] entries that fit. *)
Theorem index_capacity (max : Z) (es : list (Z * Z)) :
  0 < max <= max_int ->
  (entWidth * len es <= max ->
   exists i', WriteAll (newIndex [] max) es = Some (i', None) /\
              size i' = entWidth * len es) /\
  (max < entWidth * len es ->
   exists i', WriteAll (newIndex [] max) es = Some (i', Some EOF) /\
              size i' = entWidth * (max / entWidth)).
Proof.
  intros Hmax. unfold max_int in Hmax. rewrite entWidth_12.
  assert (Hnew : size (newIndex [] max) = 0 /\ len (mmap (newIndex [] max)) = max).
  { unfold newIndex. cbn [size mmap]. split; [reflexivity|].
    rewrite take_nil. cbn [app length]. unfold len. rewrite length_replicate. lia. }
  destruct Hnew as [Hs0 Hl0].
  destruct (WriteAll_sizes es (newIndex [] max)) as (i' & _ & Hcase);
    [rewrite Hs0, Hl0; lia|rewrite Hl0; unfold max_int; lia|].
  rewrite Hs0, Hl0 in Hcase. split.
  - intros Hfit. destruct Hcase as [(_ & Hall & Hsz)|(Hover & _)]; [|lia].
    exists i'. split; [exact Hall|lia].
  - intros Hover. destruct Hcase as [(Hfit & _)|(_ & Hall & Hge & Hmod & Hlast)]; [lia|].
    exists i'. split; [exact Hall|].
    rewrite Z.sub_0_r in Hmod.
    pose proof (Z.div_mod (size i') 12 ltac:(lia)) as Hd. rewrite Hmod in Hd.
    pose proof (Z.div_mod max 12 ltac:(lia)) as Hdm.
    pose proof (Z.mod_pos_bound max 12 ltac:(lia)) as Hmb.
    assert (size i' / 12 = max / 12) by nia.
    lia.
Qed.

(** X25. The newest entry. On an index whose size counts whole entries,
    fewer than [2^31] of them, with a mapping shorter than [2^64] bytes:
    after a [Write] that returned no error, [Read] of [-1] returns the
    offset and position just written, and so does [Read] of the number
    the entry got, the count of entries before. *)
Theorem index_Read_newest (i i' : index) (off pos : Z) :
  whole i -> size i / entWidth < 2 ^ 31 -> len (mmap i) < 2 ^ 64 ->
  Write i off pos = Some (i', None) ->
  Read i' (-1) = Some (int32 off, uint64 pos, None) /\
  Read i' (size i / entWidth) = Some (int32 off, uint64 pos, None).
Proof.
  intros Hwhole Hroom Hlen Hw.
  destruct (Read_after_Write i i' off pos Hwhole Hroom Hlen Hw) as (Hwhole' & Hsize' & Hread).
  split; [exact Hread|].
  rewrite <- Hread. rewrite Read_last; [|exact Hwhole'|rewrite Hsize', entWidth_12;
                                         destruct Hwhole as (H0 & _); lia].
  f_equal. rewrite Hsize', entWidth_12.
  replace (size i + 12) with (size i + 1 * 12) by lia.
  rewrite Z_div_plus_full by lia. lia.
Qed.

End IndexCapacityFacts.

(** ** A store's bytes as a snapshot *)

Section SnapshotFacts.
Import Store DistributedLog.
Context {LogT RecordT : Type}.
Variable log_Append : LogT -> RecordT -> LogT * (Z * option error).
Variable log_Reset : LogT -> Z -> LogT * option error.
Variable Unmarshal_record : list byte -> RecordT + error.
Variable record_Offset : RecordT -> Z.

(** X23. From store to state machine. The bytes a store on an empty file
    holds after the payloads [bs] were appended are a stream that
    [Restore] replays: a reset to the first record's offset, then every
    record in order. *)
Theorem Restore_of_store
  (bs : list (list byte)) (records : list RecordT) (lg : LogT) :
  Forall2 (fun b record => Unmarshal_record b = inl record) bs records ->
  Store.frames_total bs <= max_int ->
  Restore log_Append log_Reset Unmarshal_record record_Offset lg
    (Store.contents (Store.buf (Store.AppendAll (Store.openStore []) bs).1))
  = Some (replay log_Append log_Reset record_Offset lg records).
Proof.
  intros Hdec Hfit.
  assert (Hs0 : Store.consistent (Store.openStore [])).
  { split; vm_compute; [reflexivity|discriminate]. }
  destruct (AppendAll_contents bs (Store.openStore []) Hs0) as [Hc _];
    [cbn [Store.openStore Store.size]; change (uint64 (len [])) with 0; lia|].
  rewrite Hc. cbn [Store.openStore Store.buf]. unfold Store.contents at 1.
  cbn [Store.bf_file Store.bf_pending app].
  assert (Hmax : Forall (fun b => len b <= max_int) bs).
  { clear Hdec Hc. induction bs as [|b bs IH]; [constructor|].
    cbn [Store.frames_total foldr] in Hfit. fold (Store.frames_total bs) in Hfit.
    pose proof (frames_total_nonneg bs). pose proof (len_nonneg b).
    unfold Store.framed, Store.lenWidth in Hfit.
    constructor; [lia|]. apply IH. lia. }
  unfold Restore. rewrite <- (app_nil_r (Store.frames bs)) at 2.
  rewrite (Restore_loop_frames log_Append log_Reset Unmarshal_record record_Offset
             bs records _ lg true []); try assumption.
  - unfold stream_end. destruct (replay _ _ _ lg records) as [lg' [e|]]; reflexivity.
  - unfold Store.lenWidth. change (len []) with 0. lia.
  - pose proof (len_frames bs) as Hl. unfold len in Hl.
    assert (Hcount : Z.of_nat (length bs) <= Store.frames_total bs).
    { clear. induction bs as [|b bs IH]; [cbn; lia|].
      cbn [Store.frames_total foldr length]. fold (Store.frames_total bs).
      unfold Store.framed, Store.lenWidth. pose proof (len_nonneg b). lia. }
    lia.
Qed.

End SnapshotFacts.

(** ** Instances *)

Section ServerLogReadWitnesses.
Import ServerLog.

Lemma Log_Read_after_AppendAll_witness :
  Read (AppendAll NewLog [mkRecord [104] 7; mkRecord [105] 9]).1 1
  = Some (mkRecord [105] 1, None).
Proof.
  exact (Log_Read_after_AppendAll [mkRecord [104] 7; mkRecord [105] 9] 1
           (mkRecord [105] 9) ltac:(vm_compute; reflexivity) eq_refl).
Defined.

Lemma Log_Read_bounds_witness :
  let l := mkLog [mkRecord [104] 0] in
  (exists r, records l !! Z.to_nat 0 = Some r /\ Read l 0 = Some (r, None)) /\
  Read l 1 = Some (mkRecord [] 0, Some ErrOffsetNotFound).
Proof.
  intros l. split.
  - apply (Log_Read_bounds l 0); [vm_compute; reflexivity|lia|vm_compute; reflexivity].
  - apply (Log_Read_bounds l 1); [vm_compute; reflexivity|lia|vm_compute; discriminate].
Defined.

End ServerLogReadWitnesses.

Section StoreReadWitnesses.
Import Store.

Lemma openStore_consistent : consistent (openStore []).
Proof. split; vm_compute; [reflexivity|discriminate]. Qed.


Lemma store_Read_after_AppendAll_witness :
  exists pos s',
    (AppendAll (openStore []) [[1]; [2; 3]]).2 !! 1%nat = Some (10, pos, None) /\
    Read (AppendAll (openStore []) [[1]; [2; 3]]).1 pos = Some (s', ([2; 3], None)).
Proof.
  exact (store_Read_after_AppendAll [[1]; [2; 3]] (openStore []) openStore_consistent
           ltac:(vm_compute; discriminate) 1%nat [2; 3] eq_refl
           ltac:(vm_compute; discriminate)).
Defined.




End StoreReadWitnesses.

Section IndexTableWitnesses.
Import Index.

Lemma fresh_whole (max : Z) : whole (newIndex [] max).
Proof. unfold whole, newIndex. cbn [size]. vm_compute. intuition discriminate. Qed.

Lemma one_entry_whole : whole one_entry.
Proof. vm_compute. intuition discriminate. Qed.

Lemma index_WriteAll_Read_witness :
  exists i',
    WriteAll (newIndex [] 36) [(0, 0); (1, 19)] = Some (i', None) /\
    Read i' 0 = Some (0, 0, None) /\ Read i' 1 = Some (1, 19, None).
Proof.
  destruct (index_WriteAll_Read [(0, 0); (1, 19)] (newIndex [] 36) (fresh_whole 36)
              ltac:(vm_compute; reflexivity) ltac:(vm_compute; discriminate)
              ltac:(vm_compute; discriminate))
    as (i' & Hall & _ & _ & _ & _ & Hnew).
  exists i'. split; [exact Hall|]. split.
  - exact (Hnew 0%nat 0 0 eq_refl).
  - exact (Hnew 1%nat 1 19 eq_refl).
Defined.

Lemma index_Read_bounds_witness :
  (exists off pos, Read one_entry 0 = Some (off, pos, None)) /\
  Read one_entry 1 = Some (0, 0, Some EOF).
Proof.
  split.
  - apply (index_Read_bounds one_entry 0 one_entry_whole);
      [vm_compute; reflexivity|vm_compute; discriminate|lia|vm_compute; reflexivity].
  - apply (index_Read_bounds one_entry 1 one_entry_whole);
      [vm_compute; reflexivity|vm_compute; discriminate|lia|vm_compute; discriminate].
Defined.

Lemma index_Close_reopen_witness :
  exists f,
    Close one_entry = (f, None) /\ len f = size one_entry /\
    size (newIndex f (len (mmap one_entry))) = size one_entry /\
    len (mmap (newIndex f (len (mmap one_entry)))) = len (mmap one_entry) /\
    Read (newIndex f (len (mmap one_entry))) (-1) = Read one_entry (-1).
Proof.
  refine (index_Close_reopen one_entry (-1) one_entry_whole _ _ _);
    [vm_compute; discriminate|split; vm_compute; [reflexivity|discriminate]|lia].
Defined.

Lemma index_capacity_witness :
  (exists i', WriteAll (newIndex [] 30) [(0, 0); (1, 19)] = Some (i', None) /\
              size i' = entWidth * 2) /\
  (exists i', WriteAll (newIndex [] 30) [(0, 0); (1, 19); (2, 38)] = Some (i', Some EOF) /\
              size i' = entWidth * (30 / entWidth)).
Proof.
  split.
  - apply (index_capacity 30 [(0, 0); (1, 19)]);
      [unfold max_int; lia|vm_compute; discriminate].
  - apply (index_capacity 30 [(0, 0); (1, 19); (2, 38)]);
      [unfold max_int; lia|vm_compute; reflexivity].
Defined.

Lemma index_Read_newest_witness :
  Read one_entry (-1) = Some (int32 7, uint64 300, None) /\
  Read one_entry (size (newIndex [] 24) / entWidth) = Some (int32 7, uint64 300, None).
Proof.
  exact (index_Read_newest (newIndex [] 24) one_entry 7 300 (fresh_whole 24)
           ltac:(vm_compute; reflexivity) ltac:(vm_compute; reflexivity)
           one_entry_written).
Defined.

End IndexTableWitnesses.

Section DistributedLogWitnesses.
Import Raft Store DistributedLog.






Lemma GetServers_one_leader_witness :
  let l := mkDistributedLog tt (mkRaft "b" cluster Follower) in
  exists srvs,
    GetServers l "10.0.0.2:8400" = (srvs, None) /\
    Id <$> srvs = ["a"; "b"; "c"] /\
    (forall a, a ∈ srvs -> (IsLeader a = true <-> RpcAddr a = "10.0.0.2:8400")).
Proof.
  intros l.
  destruct (GetServers_one_leader l "10.0.0.2:8400" cluster_valid)
    as (srvs & Hg & Hid & _ & Hflag & _).
  exists srvs. split; [exact Hg|]. split; [exact Hid|exact Hflag].
Defined.


Lemma Append_off_leader_keeps_log_witness :
  let l := mkDistributedLog [[1]; [2]] (mkRaft "b" cluster Follower) in
  exists res,
    Append counting_Append id_Marshal id_Unmarshal true l [104; 105] = Some (l, res).
Proof.
  intros l.
  apply (Append_off_leader_keeps_log counting_Append id_Marshal id_Unmarshal true
           l [104; 105]).
  discriminate.
Defined.

Lemma Restore_replays_frames_witness :
  Restore counting_Append empty_Reset id_Unmarshal no_Offset [[9]]
    (Store.frames [[1]; [2; 3]])
  = Some (replay counting_Append empty_Reset no_Offset [[9]] [[1]; [2; 3]]).
Proof.
  apply (Restore_replays_frames counting_Append empty_Reset id_Unmarshal no_Offset
           [[1]; [2; 3]] [[1]; [2; 3]] [[9]]).
  - repeat constructor.
  - repeat constructor; vm_compute; discriminate.
Defined.

Lemma Restore_torn_tail_witness :
  Restore counting_Append empty_Reset id_Unmarshal no_Offset [[9]]
    (Store.frames [[1]; [2; 3]] ++ [0; 0; 0])
  = Some ([[1]; [2; 3]], Some ErrUnexpectedEOF).
Proof.
  apply (Restore_torn_tail counting_Append empty_Reset id_Unmarshal no_Offset
           [[1]; [2; 3]] [[1]; [2; 3]] [[9]] [[1]; [2; 3]] [0; 0; 0]).
  - repeat constructor.
  - repeat constructor; vm_compute; discriminate.
  - split; vm_compute; reflexivity.
  - reflexivity.
Defined.

Lemma Restore_of_store_witness :
  Restore counting_Append empty_Reset id_Unmarshal no_Offset [[9]]
    (Store.contents (Store.buf (Store.AppendAll (Store.openStore []) [[1]; [2; 3]]).1))
  = Some (replay counting_Append empty_Reset no_Offset [[9]] [[1]; [2; 3]]).
Proof.
  apply (Restore_of_store counting_Append empty_Reset id_Unmarshal no_Offset
           [[1]; [2; 3]] [[1]; [2; 3]] [[9]]).
  - repeat constructor.
  - vm_compute; discriminate.
Defined.

End DistributedLogWitnesses.

Section ConsumeStreamDeliveryWitnesses.
Import GrpcServer.

Lemma ConsumeStream_delivers_witness :
  ConsumeStream [mkTick false [first; second] None; mkTick false [first; second] None]
    (mkStream 0 [])
  = (mkStream 2 [first; second], Looping).
Proof.
  apply (ConsumeStream_delivers
           [(mkTick false [first; second] None, first);
            (mkTick false [first; second] None, second)] 0 []).
  - lia.
  - vm_compute; reflexivity.
  - intros [|[|j]] t r Hj; inversion Hj; subst; repeat split; reflexivity.
Defined.

End ConsumeStreamDeliveryWitnesses.

Section ReplicatorLifeWitnesses.
Import Replicator.

Lemma Leave_then_Join_witness :
  let r := (Join zero "b" "10.0.0.2:8400").1 in
  exists r1 r2 c',
    Leave r "b" = Some (r1, None) /\
    tasks r1 !! "b" = None /\ 1%nat ∈ closed_chans r1 /\ goroutines r1 = goroutines r /\
    Join r1 "b" "10.0.0.7:8400" = (r2, None) /\
    tasks r2 !! "b" = Some c' /\ c' <> 1%nat /\ (c' ∉ closed_chans r2) /\
    goroutines r2 = goroutines r ++ [("10.0.0.7:8400", c')] /\
    (forall n, n <> "b" -> tasks r2 !! n = tasks r !! n).
Proof.
  intros r.
  apply (Leave_then_Join r "b" "10.0.0.7:8400" 1%nat).
  - apply Join_sound. exact sound_zero.
  - reflexivity.
  - reflexivity.
Defined.

Lemma Close_keeps_tasks_witness :
  let r := (Join zero "b" "10.0.0.2:8400").1 in
  exists r1 c,
    Close r = Some (r1, None) /\ closed r1 = true /\
    close r1 = Some c /\ closed_chans r1 = {[c]} ∪ closed_chans r /\
    tasks r1 = tasks r /\ goroutines r1 = goroutines r /\
    (forall n c', tasks r1 !! n = Some c' -> c' ∉ closed_chans r1).
Proof.
  intros r.
  apply (Close_keeps_tasks r).
  - apply Join_sound. exact sound_zero.
  - reflexivity.
Defined.

End ReplicatorLifeWitnesses.

Section MembershipWitnesses.
Import Membership.

Lemma eventHandler_tracks_peers_witness :
  let events :=
    [EventMemberJoin [mkMember "a" ∅; mkMember "b" {[ "rpc_addrs" := "10.0.0.2:8400" ]}];
     EventMemberLeave [mkMember "b" ∅]] in
  exists r',
    eventHandler "a" Replicator.zero events = Some r' /\
    Replicator.sound r' /\ Replicator.closed r' = false /\
    dom (Replicator.tasks r')
    = foldl (peers_after "a") (dom (Replicator.tasks Replicator.zero)) events /\
    ("a" ∉ dom (Replicator.tasks Replicator.zero) -> "a" ∉ dom (Replicator.tasks r')).
Proof.
  intros events.
  exact (eventHandler_tracks_peers "a" events Replicator.zero sound_zero eq_refl).
Defined.

End MembershipWitnesses.
